(** * Quaternion rotations of OpenSceneGraph: [src/osg/Quat.cpp]

    A shallow embedding of [osg::Quat]'s conversion routines (angle/axis,
    vector-to-vector, slerp, matrix) and the properties its specification
    states about them.

    ** Arithmetic model

    The C++ code computes on IEEE [float]/[double] values.  The embedding
    idealises them: a finite value is a real number of [R] and every
    operation on finite values is exact (no rounding, no overflow, no signed
    zero).  What IEEE arithmetic adds to the reals and the code observably
    relies on is kept: a division by zero, a square root of a negative number
    or an [acos] outside [-1,1] does not trap, it yields a non-finite value
    (an infinity or a NaN), which then flows through the following
    arithmetic.  The embedding has one value, [NonFin], for all of them.

    Two features of the machine arithmetic change results in kind and are
    kept.  [acos(-1.0)] is the double nearest [PI], not [PI]: [slerp]
    divides by its sine, which is not zero.  And the sum of squares in
    [Quat::makeRot(angle, x, y, z)] is a [float], which overflows for a long
    axis and is rounded to zero for a short one: [makeRot_float] is
    [makeRot] with that range.  Elsewhere the properties that depend on the
    range of [float] are stated for arguments of bounded magnitude. *)

From Stdlib Require Import Reals Lra Lia Bool ZArith List RNsatz.
Import ListNotations.

Open Scope R_scope.

(** ** Floating-point values *)

Inductive float : Type :=
| Fin (r : R)   (* a finite value *)
| NonFin.       (* an infinity or a NaN *)

Definition lift1 (f : R -> R) (a : float) : float :=
  match a with
  | Fin x => Fin (f x)
  | NonFin => NonFin
  end.

Definition lift2 (f : R -> R -> R) (a b : float) : float :=
  match a, b with
  | Fin x, Fin y => Fin (f x y)
  | _, _ => NonFin
  end.

Definition fopp : float -> float := lift1 Ropp.
Definition fadd : float -> float -> float := lift2 Rplus.
Definition fsub : float -> float -> float := lift2 Rminus.
Definition fmul : float -> float -> float := lift2 Rmult.

(** [a / b]: a zero divisor gives a non-finite quotient. *)
Definition fdiv (a b : float) : float :=
  match a, b with
  | Fin x, Fin y => if Req_dec_T y 0 then NonFin else Fin (x / y)
  | _, _ => NonFin
  end.

(** [sqrt] of <math.h>: NaN below zero. *)
Definition fsqrt (a : float) : float :=
  match a with
  | Fin x => if Rlt_dec x 0 then NonFin else Fin (sqrt x)
  | NonFin => NonFin
  end.

Definition fsin : float -> float := lift1 sin.
Definition fcos : float -> float := lift1 cos.
Definition ffabs : float -> float := lift1 Rabs.

(** The double nearest [PI], the value of [acos(-1.0)]: it lies below [PI]
    by 1.2246467991473532e-16.  This one rounding is kept, because [slerp]
    divides by the sine of what [acos] returns. *)
Definition M_PI_double : R :=
  PI - 12246467991473532 / 100000000000000000000000000000000.

(** [acos] of <math.h>: NaN outside [-1,1], a value in [0,PI] inside, the
    double nearest [PI] at -1. *)
Definition facos (a : float) : float :=
  match a with
  | Fin x =>
      if Req_dec_T x (-1) then Fin M_PI_double
      else if Rle_dec (-1) x then
        if Rle_dec x 1 then Fin (acos x) else NonFin
      else NonFin
  | NonFin => NonFin
  end.

(** [atan2 y x] of <math.h> on finite arguments: the angle of the point
    [(x,y)], in the interval from [-PI] to [PI]; [atan2 0 0 = 0]. *)
Definition atan2 (y x : R) : R :=
  if Rlt_dec 0 x then atan (y / x)
  else if Rlt_dec x 0 then
         if Rle_dec 0 y then atan (y / x) + PI else atan (y / x) - PI
  else if Rlt_dec 0 y then PI / 2
  else if Rlt_dec y 0 then - (PI / 2)
  else 0.

Definition fatan2 : float -> float -> float := lift2 atan2.

(** Comparisons: false as soon as an operand is a NaN, except [!=], which
    is then true.  On finite operands they are the comparisons of [R]. *)
Definition flt (a b : float) : bool :=
  match a, b with
  | Fin x, Fin y => if Rlt_dec x y then true else false
  | _, _ => false
  end.

Definition fgt (a b : float) : bool := flt b a.

Definition fne (a b : float) : bool :=
  match a, b with
  | Fin x, Fin y => if Req_dec_T x y then false else true
  | _, _ => true
  end.

Definition is_finite (a : float) : Prop :=
  match a with Fin _ => True | NonFin => False end.

Declare Scope float_scope.
Delimit Scope float_scope with fl.
Bind Scope float_scope with float.
Notation "- a" := (fopp a) : float_scope.
Infix "+" := fadd : float_scope.
Infix "-" := fsub : float_scope.
Infix "*" := fmul : float_scope.
Infix "/" := fdiv : float_scope.

(** ** The collaborators: [osg::Vec3], [osg::Vec4], [osg::Matrix] *)

(** Modelled from the spec: [osg::Vec3] (header [osg/Vec3], not part of the
    sources at hand), "three real components", with element access by
    index. *)
Record Vec3 : Type := mkVec3 { v3x : float; v3y : float; v3z : float }.

(** Modelled from the spec: [Vec3::operator[]], read access; the indices the
    code uses are 0, 1 and 2. *)
Definition vget (v : Vec3) (i : nat) : float :=
  match i with
  | O => v3x v
  | S O => v3y v
  | _ => v3z v
  end.

(** Modelled from the spec: [Vec3::operator[]], write access. *)
Definition vset (v : Vec3) (i : nat) (a : float) : Vec3 :=
  match i with
  | O => mkVec3 a (v3y v) (v3z v)
  | S O => mkVec3 (v3x v) a (v3z v)
  | _ => mkVec3 (v3x v) (v3y v) a
  end.

(** Modelled from the spec: [Vec3::operator*], the dot product. *)
Definition dot3 (a b : Vec3) : float :=
  (v3x a * v3x b + v3y a * v3y b + v3z a * v3z b)%fl.

(** Modelled from the spec: [Vec3::operator^], the cross product. *)
Definition cross (a b : Vec3) : Vec3 :=
  mkVec3 (v3y a * v3z b - v3z a * v3y b)%fl
         (v3z a * v3x b - v3x a * v3z b)%fl
         (v3x a * v3y b - v3y a * v3x b)%fl.

(** Modelled from the spec: [Vec3::length], the Euclidean length. *)
Definition length3 (a : Vec3) : float :=
  fsqrt (v3x a * v3x a + v3y a * v3y a + v3z a * v3z a)%fl.

(** Modelled from the spec: [Vec3::operator/] by a scalar, componentwise. *)
Arguments vget v i%_nat.
Arguments vset v i%_nat a%_fl.

Definition vdiv (a : Vec3) (s : float) : Vec3 :=
  mkVec3 (v3x a / s)%fl (v3y a / s)%fl (v3z a / s)%fl.

(** Modelled from the spec: [osg::Vec4] (header [osg/Vec4]), the "generic
    4-vector layout" a quaternion is stored in. *)
Record Vec4 : Type :=
  mkVec4 { v4x : float; v4y : float; v4z : float; v4w : float }.

(** Modelled from the spec: [Vec4::operator*] on two vectors, the
    4-component dot product. *)
Definition dot4 (a b : Vec4) : float :=
  (v4x a * v4x b + v4y a * v4y b + v4z a * v4z b + v4w a * v4w b)%fl.

(** Modelled from the spec: [Vec4::operator*] by a scalar. *)
Definition scale4 (a : Vec4) (s : float) : Vec4 :=
  mkVec4 (v4x a * s)%fl (v4y a * s)%fl (v4z a * s)%fl (v4w a * s)%fl.

(** Modelled from the spec: [Vec4::operator+]. *)
Definition add4 (a b : Vec4) : Vec4 :=
  mkVec4 (v4x a + v4x b)%fl (v4y a + v4y b)%fl
         (v4z a + v4z b)%fl (v4w a + v4w b)%fl.

(** Modelled from the spec: [osg::Matrix] (header [osg/Matrix]), "a matrix
    addressable by (row, col)": [m r c] is the element read by [m(r,c)]. *)
Definition Matrix : Type := nat -> nat -> float.

(** Modelled from the spec: the read access [m(r,c)]. *)
Definition mget (m : Matrix) (r c : nat) : float := m r c.

(** Modelled from the spec: the assignment [m(r,c) = a]. *)
Definition mset (m : Matrix) (r c : nat) (a : float) : Matrix :=
  fun r' c' => if (Nat.eqb r r' && Nat.eqb c c')%bool then a else m r' c'.

Arguments mget m (r c)%_nat.
Arguments mset m (r c)%_nat a%_fl.

(** ** [osg::Quat] *)

(** The four components [_fv[0..3]], under the names of the macros
    [QX], [QY], [QZ], [QW] of the source. *)
Record Quat : Type :=
  mkQuat { QX : float; QY : float; QZ : float; QW : float }.

Definition asVec4 (q : Quat) : Vec4 := mkVec4 (QX q) (QY q) (QZ q) (QW q).
Definition ofVec4 (v : Vec4) : Quat := mkQuat (v4x v) (v4y v) (v4z v) (v4w v).

(** The Euclidean norm of the four components. *)
Definition quat_norm (q : Quat) : float :=
  fsqrt (QX q * QX q + QY q * QY q + QZ q * QZ q + QW q * QW q)%fl.

Definition quat_finite (q : Quat) : Prop :=
  is_finite (QX q) /\ is_finite (QY q) /\ is_finite (QZ q) /\ is_finite (QW q).

(** [Quat::makeRot(angle, x, y, z)] *)
Definition makeRot (angle x y z : float) : Quat :=
  let _angle := (- angle)%fl in
  let inversenorm := (Fin 1 / fsqrt (x * x + y * y + z * z))%fl in
  let coshalfangle := fcos (Fin 0.5 * _angle)%fl in
  let sinhalfangle := fsin (Fin 0.5 * _angle)%fl in
  mkQuat (x * sinhalfangle * inversenorm)%fl
         (y * sinhalfangle * inversenorm)%fl
         (z * sinhalfangle * inversenorm)%fl
         coshalfangle.

(** [Quat::makeRot(angle, vec)] *)
Definition makeRot_axis (angle : float) (vec : Vec3) : Quat :=
  makeRot angle (vget vec 0) (vget vec 1) (vget vec 2).

(** The axis chosen by [Quat::makeRot(vec1, vec2)] when the vectors are
    opposite: the position of the component of [vec1] that is biggest in
    magnitude is found, a zero is put there in [(1,1,1)], and [vec1] is
    crossed with the result. *)
Definition biggest_posn (vec1 : Vec3) : nat :=
  let biggest := ffabs (vget vec1 0) in
  let bigposn := 0%nat in
  let '(biggest, bigposn) :=
    if fgt (ffabs (vget vec1 1)) biggest
    then (ffabs (vget vec1 1), 1%nat) else (biggest, bigposn) in
  let '(biggest, bigposn) :=
    if fgt (ffabs (vget vec1 2)) biggest
    then (ffabs (vget vec1 2), 2%nat) else (biggest, bigposn) in
  bigposn.

Definition opposite_axis (vec1 : Vec3) : Vec3 :=
  let bigposn := biggest_posn vec1 in
  let temp := mkVec3 (Fin 1) (Fin 1) (Fin 1) in
  let temp := vset temp bigposn (Fin 0) in
  cross vec1 temp.

Definition epsilon : R := 0.00001.

(** [Quat::makeRot(vec1, vec2)]: the rotation which takes [vec1] to
    [vec2]. *)
Definition makeRot_fromto (vec1 vec2 : Vec3) : Quat :=
  let length1 := length3 vec1 in
  let length2 := length3 vec2 in
  let cosangle := (dot3 vec1 vec2 / (length1 * length2))%fl in
  if flt (ffabs (cosangle - Fin 1)%fl) (Fin epsilon) then
    makeRot (Fin 0) (Fin 1) (Fin 0) (Fin 0)
  else if flt (ffabs (cosangle + Fin 1)%fl) (Fin epsilon) then
    let axis := opposite_axis vec1 in
    makeRot_axis (Fin PI) axis
  else
    let axis := cross vec1 vec2 in
    let angle := facos cosangle in
    makeRot_axis angle axis.

(** [Quat::getRot(angle, vec)]: the two output parameters are returned as a
    pair. *)
Definition getRot (q : Quat) : float * Vec3 :=
  let sinhalfangle := fsqrt (QX q * QX q + QY q * QY q + QZ q * QZ q)%fl in
  let angle := (Fin 2 * fatan2 sinhalfangle (QW q))%fl in
  let vec := vdiv (mkVec3 (QX q) (QY q) (QZ q)) sinhalfangle in
  (angle, vec).

(** [Quat::getRot(angle, x, y, z)] *)
Definition getRot_xyz (q : Quat) : float * float * float * float :=
  let sinhalfangle := fsqrt (QX q * QX q + QY q * QY q + QZ q * QZ q)%fl in
  let angle := (Fin 2 * fatan2 sinhalfangle (QW q))%fl in
  (angle, QX q / sinhalfangle, QY q / sinhalfangle, QZ q / sinhalfangle)%fl.

(** [Quat::slerp(t, from, to)] *)
Definition slerp (t : float) (from to : Quat) : Quat :=
  let cosomega := dot4 (asVec4 from) (asVec4 to) in
  let '(scale_from, scale_to) :=
    if fgt (Fin 1 - cosomega)%fl (Fin epsilon) then
      let omega := facos cosomega in
      let sinomega := fsin omega in
      (fsin ((Fin 1 - t) * omega) / sinomega,
       fsin (t * omega) / sinomega)%fl
    else
      (Fin 1 - t, t)%fl in
  ofVec4 (add4 (scale4 (asVec4 from) scale_from)
               (scale4 (asVec4 to) scale_to)).

(** [int nxt[3] = {1, 2, 0}] *)
Definition nxt (i : nat) : nat := nth i [1; 2; 0]%nat 0%nat.

(** The local array [float tq[4]]: a function of the index, with the
    assignment [tq[i] = a].  Before its first assignment an element holds
    no value the code may rely on. *)
Definition indeterminate : nat -> float := fun _ => NonFin.

Definition aset (tq : nat -> float) (i : nat) (a : float) : nat -> float :=
  fun i' => if Nat.eqb i i' then a else tq i'.

Arguments aset tq i%_nat a%_fl.

(** [Quat::set(m)], second branch: the index of the largest entry of the
    diagonal. *)
Definition largest_diag (m : Matrix) : nat :=
  let i := 0%nat in
  let i := if fgt (mget m 1 1) (mget m 0 0) then 1%nat else i in
  let i := if fgt (mget m 2 2) (mget m i i) then 2%nat else i in
  i.

(** [Quat::set(m)], second branch, from [tq[i] = s * 0.5f] on: what is
    computed from the index [i] and the square root [s]. *)
Definition set_from_s (m : Matrix) (i : nat) (s : float) : Quat :=
  let j := nxt i in
  let k := nxt j in
  let tq := aset indeterminate i (s * Fin 0.5)%fl in
  let s := if fne s (Fin 0) then (Fin 0.5 / s)%fl else s in
  let tq := aset tq 3 ((mget m j k - mget m k j) * s)%fl in
  let tq := aset tq j ((mget m i j + mget m j i) * s)%fl in
  let tq := aset tq k ((mget m i k + mget m k i) * s)%fl in
  mkQuat (tq 0%nat) (tq 1%nat) (tq 2%nat) (tq 3%nat).

(** [Quat::set(m)]: the quaternion of a rotation matrix. *)
Definition set (m : Matrix) : Quat :=
  let tr := (mget m 0 0 + mget m 1 1 + mget m 2 2)%fl in
  if fgt tr (Fin 0) then
    let s := fsqrt (tr + Fin 1)%fl in
    let qw := (s / Fin 2)%fl in
    let s := (Fin 0.5 / s)%fl in
    mkQuat ((mget m 1 2 - mget m 2 1) * s)%fl
           ((mget m 2 0 - mget m 0 2) * s)%fl
           ((mget m 0 1 - mget m 1 0) * s)%fl
           qw
  else
    let i := largest_diag m in
    let j := nxt i in
    let k := nxt j in
    let s := fsqrt ((mget m i i - (mget m j j + mget m k k)) + Fin 1)%fl in
    set_from_s m i s.

(** [Quat::get(m)]: the rotation matrix of a quaternion, written into
    [m]. *)
Definition get (q : Quat) (m : Matrix) : Matrix :=
  let x2 := (QX q + QX q)%fl in
  let y2 := (QY q + QY q)%fl in
  let z2 := (QZ q + QZ q)%fl in
  let xx := (QX q * x2)%fl in
  let xy := (QX q * y2)%fl in
  let xz := (QX q * z2)%fl in
  let yy := (QY q * y2)%fl in
  let yz := (QY q * z2)%fl in
  let zz := (QZ q * z2)%fl in
  let wx := (QW q * x2)%fl in
  let wy := (QW q * y2)%fl in
  let wz := (QW q * z2)%fl in
  let m := mset m 0 0 (Fin 1 - (yy + zz))%fl in
  let m := mset m 0 1 (xy - wz)%fl in
  let m := mset m 0 2 (xz + wy)%fl in
  let m := mset m 0 3 (Fin 0) in
  let m := mset m 1 0 (xy + wz)%fl in
  let m := mset m 1 1 (Fin 1 - (xx + zz))%fl in
  let m := mset m 1 2 (yz - wx)%fl in
  let m := mset m 1 3 (Fin 0) in
  let m := mset m 2 0 (xz - wy)%fl in
  let m := mset m 2 1 (yz + wx)%fl in
  let m := mset m 2 2 (Fin 1 - (xx + yy))%fl in
  let m := mset m 2 3 (Fin 0) in
  let m := mset m 3 0 (Fin 0) in
  let m := mset m 3 1 (Fin 0) in
  let m := mset m 3 2 (Fin 0) in
  let m := mset m 3 3 (Fin 1) in
  m.

(** ** The statements of the specification *)

(** [u] and [v] differ by a multiple of [2 * PI]. *)
Definition congruent_2PI (u v : R) : Prop :=
  exists k : Z, u = v + 2 * IZR k * PI.

(** The round trip from the angle [a] and the axis [(x,y,z)] to a quaternion
    and back.  [makeRot] negates the angle it is given, so what comes back is
    the rotation by [- a] about the axis: either the unit vector along the
    axis with an angle congruent to [- a], or the opposite unit vector with
    an angle congruent to [a]. *)
Definition angle_axis_roundtrip (a x y z : R) : Prop :=
  let n := sqrt (x * x + y * y + z * z) in
  exists angle' ax ay az : R,
    getRot (makeRot_axis (Fin a) (mkVec3 (Fin x) (Fin y) (Fin z)))
    = (Fin angle', mkVec3 (Fin ax) (Fin ay) (Fin az))
    /\ ((ax = x / n /\ ay = y / n /\ az = z / n /\ congruent_2PI angle' (- a))
        \/ (ax = - x / n /\ ay = - y / n /\ az = - z / n
            /\ congruent_2PI angle' a)).

(** The angle [getRot] returns for the quaternion [(x,y,z,w)] is
    [2 * atan2 (sqrt (x^2+y^2+z^2)) w] and lies between [- PI] and [PI]. *)
Definition getRot_angle_within_PI (x y z w : R) : Prop :=
  exists angle : R,
    fst (getRot (mkQuat (Fin x) (Fin y) (Fin z) (Fin w))) = Fin angle
    /\ angle = 2 * atan2 (sqrt (x * x + y * y + z * z)) w
    /\ - PI <= angle <= PI.

(** A quaternion of finite components. *)
Definition qfin (x y z w : R) : Quat := mkQuat (Fin x) (Fin y) (Fin z) (Fin w).

(** [(x,y,z,w)] is a unit quaternion. *)
Definition unit4 (x y z w : R) : Prop := x * x + y * y + z * z + w * w = 1.

(** The blend [from * scale_from + to * scale_to] of slerp, on reals. *)
Definition blend (fx fy fz fw sf tx ty tz tw st : R) : Quat :=
  qfin (fx * sf + tx * st) (fy * sf + ty * st)
       (fz * sf + tz * st) (fw * sf + tw * st).


(** slerp as the specification words it: the cosine is the 4-component dot
    product; above the threshold the weights are
    [sin((1-t) omega) / sin(omega)] and [sin(t omega) / sin(omega)] with
    [omega = acos(cosOmega)], otherwise [1 - t] and [t]; the result is the
    weighted sum of the two quaternions, component by component. *)
Definition slerp_spec (t : float) (from to : Quat) : Quat :=
  let cosOmega :=
    (QX from * QX to + QY from * QY to + QZ from * QZ to + QW from * QW to)%fl in
  let omega := facos cosOmega in
  let sinOmega := fsin omega in
  let spherical := fgt (Fin 1 - cosOmega)%fl (Fin (1 / 100000)) in
  let scaleFrom :=
    if spherical then (fsin ((Fin 1 - t) * omega) / sinOmega)%fl
    else (Fin 1 - t)%fl in
  let scaleTo :=
    if spherical then (fsin (t * omega) / sinOmega)%fl else t in
  mkQuat (QX from * scaleFrom + QX to * scaleTo)%fl
         (QY from * scaleFrom + QY to * scaleTo)%fl
         (QZ from * scaleFrom + QZ to * scaleTo)%fl
         (QW from * scaleFrom + QW to * scaleTo)%fl.

(** A matrix of finite entries. *)
Definition mfin (M : nat -> nat -> R) : Matrix := fun r c => Fin (M r c).

(** The conjugate and the opposite of a quaternion of finite components. *)
Definition qconj (x y z w : R) : Quat := qfin (- x) (- y) (- z) w.
Definition qopp (x y z w : R) : Quat := qfin (- x) (- y) (- z) (- w).

(** The round trip through the rotation matrix gives the quaternion back,
    or its opposite. *)
Definition matrix_roundtrip (x y z w : R) (m : Matrix) : Prop :=
  set (get (qfin x y z w) m) = qfin x y z w
  \/ set (get (qfin x y z w) m) = qopp x y z w.

(** The entries [get] writes for the quaternion [(x,y,z,w)], as reals. *)
Definition rotmat (x y z w : R) (r c : nat) : R :=
  match r, c with
  | 0%nat, 0%nat => 1 - (y * (y + y) + z * (z + z))
  | 0%nat, 1%nat => x * (y + y) - w * (z + z)
  | 0%nat, 2%nat => x * (z + z) + w * (y + y)
  | 1%nat, 0%nat => x * (y + y) + w * (z + z)
  | 1%nat, 1%nat => 1 - (x * (x + x) + z * (z + z))
  | 1%nat, 2%nat => y * (z + z) - w * (x + x)
  | 2%nat, 0%nat => x * (z + z) - w * (y + y)
  | 2%nat, 1%nat => y * (z + z) + w * (x + x)
  | 2%nat, 2%nat => 1 - (x * (x + x) + y * (y + y))
  | 3%nat, 3%nat => 1
  | _, _ => 0
  end.

(** The matrix of the half turn about the first axis. *)
Definition half_turn_x (r c : nat) : R :=
  match r, c with
  | 0%nat, 0%nat => 1
  | 1%nat, 1%nat => -1
  | 2%nat, 2%nat => -1
  | _, _ => 0
  end.

(** ** Notions used for the further properties *)

(** The conjugate and the opposite of a quaternion. *)
Definition quat_conj (q : Quat) : Quat :=
  mkQuat (- QX q)%fl (- QY q)%fl (- QZ q)%fl (QW q).

Definition quat_opp (q : Quat) : Quat :=
  mkQuat (- QX q)%fl (- QY q)%fl (- QZ q)%fl (- QW q)%fl.

(** The transposed matrix. *)
Definition transpose (m : Matrix) : Matrix := fun r c => m c r.

(** The dot product of two rows, and of two columns, of the upper left 3x3
    block of a matrix. *)
Definition row_dot (m : Matrix) (i j : nat) : float :=
  (mget m i 0 * mget m j 0 + mget m i 1 * mget m j 1
   + mget m i 2 * mget m j 2)%fl.

Definition col_dot (m : Matrix) (i j : nat) : float :=
  (mget m 0 i * mget m 0 j + mget m 1 i * mget m 1 j
   + mget m 2 i * mget m 2 j)%fl.

(** The product of a row vector with the upper left 3x3 block of a matrix,
    and the product of that block with a column vector. *)
Definition vec_mat (v : Vec3) (m : Matrix) : Vec3 :=
  mkVec3 (v3x v * mget m 0 0 + v3y v * mget m 1 0 + v3z v * mget m 2 0)%fl
         (v3x v * mget m 0 1 + v3y v * mget m 1 1 + v3z v * mget m 2 1)%fl
         (v3x v * mget m 0 2 + v3y v * mget m 1 2 + v3z v * mget m 2 2)%fl.

Definition mat_vec (m : Matrix) (v : Vec3) : Vec3 :=
  mkVec3 (mget m 0 0 * v3x v + mget m 0 1 * v3y v + mget m 0 2 * v3z v)%fl
         (mget m 1 0 * v3x v + mget m 1 1 * v3y v + mget m 1 2 * v3z v)%fl
         (mget m 2 0 * v3x v + mget m 2 1 * v3y v + mget m 2 2 * v3z v)%fl.

(** ** The range of [float] *)

(** The largest finite [float], [(2 - 2^-23) * 2^127]; the smallest normal
    one, [2^-126]; and [2^-150], below which a [float] result is rounded to
    zero. *)
Definition FLT_MAX : R := 340282346638528859811704183484516925440.
Definition FLT_MIN : R := / 85070591730234615865843651857942052864.
Definition FLT_UNDERFLOW : R :=
  / 1427247692705959881058285969449495136382746624.

(** [1.0 / sqrt(x*x + y*y + z*z)] of [Quat::makeRot(angle, x, y, z)] with
    the range of [float]: the sum of squares is a [float]; above [FLT_MAX]
    it is +inf, of square root +inf and of inverse 0; below [2^-150] it is
    0, and the inverse is +inf. *)
Definition inversenorm_float (x y z : float) : float :=
  match x, y, z with
  | Fin rx, Fin ry, Fin rz =>
      let s := rx * rx + ry * ry + rz * rz in
      if Rlt_dec FLT_MAX s then Fin 0
      else if Rlt_dec s FLT_UNDERFLOW then NonFin
      else Fin (1 / sqrt s)
  | _, _, _ => NonFin
  end.

(** [Quat::makeRot(angle, x, y, z)] with the range of [float] at the sum of
    squares. *)
Definition makeRot_float (angle x y z : float) : Quat :=
  let _angle := (- angle)%fl in
  let inversenorm := inversenorm_float x y z in
  let coshalfangle := fcos (Fin 0.5 * _angle)%fl in
  let sinhalfangle := fsin (Fin 0.5 * _angle)%fl in
  mkQuat (x * sinhalfangle * inversenorm)%fl
         (y * sinhalfangle * inversenorm)%fl
         (z * sinhalfangle * inversenorm)%fl
         coshalfangle.

(** The squared length of the axis is a normal [float]. *)
Definition normal_range (x y z : R) : Prop :=
  FLT_MIN <= x * x + y * y + z * z <= FLT_MAX.

(** C1 as it is stated, for the angle [a] and the axis [(x,y,z)]: norm 1,
    and the same quaternion for every positive multiple of the axis. *)
Definition makeRot_unit_any_magnitude (a x y z : R) : Prop :=
  quat_norm (makeRot_float (Fin a) (Fin x) (Fin y) (Fin z)) = Fin 1
  /\ forall c : R, 0 < c ->
       makeRot_float (Fin a) (Fin (c * x)) (Fin (c * y)) (Fin (c * z))
       = makeRot_float (Fin a) (Fin x) (Fin y) (Fin z).

(** A vector of moderate length, between 1e-8 and 1e8: the squares and
    products of the components of two such vectors, and of their cross
    product outside the special regimes, are normal [float]s. *)
Definition moderate (x y z : R) : Prop :=
  / 100000000 <= sqrt (x * x + y * y + z * z) <= 100000000.

(** ** Proof automation *)

(** Unfolds the lifted operations on finite operands. *)
Ltac fin_eval :=
  unfold vdiv, cross, dot3, dot4, length3, scale4, add4, asVec4, ofVec4;
  cbn [fopp fadd fsub fmul fsin fcos ffabs fatan2 lift1 lift2
       v3x v3y v3z v4x v4y v4z v4w QX QY QZ QW vget vset fst snd].

Ltac set_eval :=
  unfold mget, mfin, aset, indeterminate, nxt;
  cbn [nth Nat.eqb]; fin_eval.

(** Closes a goal [mkQuat (Fin _) .. = qfin ..] by equations of a field. *)
Ltac quat_field H :=
  unfold qconj, qfin; f_equal; f_equal;
  try (replace 0.5 with (/ 2) by lra); field; exact H.

(** * Properties *)

(** ** Evaluation of the arithmetic on finite values *)

Lemma fsqrt_Fin (x : R) : 0 <= x -> fsqrt (Fin x) = Fin (sqrt x).
Proof.
  intros Hx. unfold fsqrt. destruct (Rlt_dec x 0) as [Hneg | _]; [lra | reflexivity].
Qed.

Lemma fdiv_Fin (x y : R) : y <> 0 -> (Fin x / Fin y)%fl = Fin (x / y).
Proof.
  intros Hy. unfold fdiv. destruct (Req_dec_T y 0) as [H0 | _]; [contradiction | reflexivity].
Qed.

Lemma fdiv_zero (x : R) : (Fin x / Fin 0)%fl = NonFin.
Proof.
  unfold fdiv. destruct (Req_dec_T 0 0) as [_ | H0]; [reflexivity | now elim H0].
Qed.

Lemma facos_Fin (x : R) : -1 < x <= 1 -> facos (Fin x) = Fin (acos x).
Proof.
  intros [Hl Hu]. unfold facos.
  destruct (Req_dec_T x (-1)) as [H | _]; [lra |].
  destruct (Rle_dec (-1) x) as [_ | H]; [| lra].
  destruct (Rle_dec x 1) as [_ | H]; [reflexivity | contradiction].
Qed.

Lemma facos_minus_one : facos (Fin (-1)) = Fin M_PI_double.
Proof.
  unfold facos. destruct (Req_dec_T (-1) (-1)) as [_ | H]; [reflexivity | now elim H].
Qed.

Lemma facos_below (x : R) : x < -1 -> facos (Fin x) = NonFin.
Proof.
  intros Hx. unfold facos.
  destruct (Req_dec_T x (-1)) as [H | _]; [lra |].
  destruct (Rle_dec (-1) x) as [H | _]; [lra | reflexivity].
Qed.

(** The sine of the double nearest [PI] is positive. *)
Lemma sin_M_PI_double : 0 < sin M_PI_double.
Proof.
  unfold M_PI_double. assert (HPI := PI2_3_2).
  apply sin_gt_0; lra.
Qed.

Lemma flt_true (x y : R) : x < y -> flt (Fin x) (Fin y) = true.
Proof.
  intros H. unfold flt. destruct (Rlt_dec x y); [reflexivity | contradiction].
Qed.

Lemma flt_false (x y : R) : ~ x < y -> flt (Fin x) (Fin y) = false.
Proof.
  intros H. unfold flt. destruct (Rlt_dec x y); [contradiction | reflexivity].
Qed.

Lemma fne_true (x y : R) : x <> y -> fne (Fin x) (Fin y) = true.
Proof.
  intros H. unfold fne. destruct (Req_dec_T x y); [contradiction | reflexivity].
Qed.

Lemma fne_same (x : R) : fne (Fin x) (Fin x) = false.
Proof.
  unfold fne. destruct (Req_dec_T x x) as [_ | H]; [reflexivity | now elim H].
Qed.

(** ** Sums of squares *)

Lemma sumsq3_pos (x y z : R) :
  x <> 0 \/ y <> 0 \/ z <> 0 -> 0 < x * x + y * y + z * z.
Proof.
  intros H.
  assert (Hx := Rle_0_sqr x). assert (Hy := Rle_0_sqr y). assert (Hz := Rle_0_sqr z).
  unfold Rsqr in *.
  destruct H as [H | [H | H]].
  - assert (0 < x * x) by (apply Rsqr_pos_lt in H; exact H). lra.
  - assert (0 < y * y) by (apply Rsqr_pos_lt in H; exact H). lra.
  - assert (0 < z * z) by (apply Rsqr_pos_lt in H; exact H). lra.
Qed.

Lemma norm3_pos (x y z : R) :
  x <> 0 \/ y <> 0 \/ z <> 0 -> 0 < sqrt (x * x + y * y + z * z).
Proof. intros H. apply sqrt_lt_R0, sumsq3_pos, H. Qed.

Lemma norm3_sqr (x y z : R) :
  sqrt (x * x + y * y + z * z) * sqrt (x * x + y * y + z * z)
  = x * x + y * y + z * z.
Proof.
  apply sqrt_sqrt.
  assert (Hx := Rle_0_sqr x). assert (Hy := Rle_0_sqr y). assert (Hz := Rle_0_sqr z).
  unfold Rsqr in *. lra.
Qed.

Lemma norm3_scale (c x y z : R) :
  0 < c ->
  sqrt (c * x * (c * x) + c * y * (c * y) + c * z * (c * z))
  = c * sqrt (x * x + y * y + z * z).
Proof.
  intros Hc.
  replace (c * x * (c * x) + c * y * (c * y) + c * z * (c * z))
    with (c * c * (x * x + y * y + z * z)) by ring.
  rewrite sqrt_mult_alt by nra.
  rewrite sqrt_square by lra. reflexivity.
Qed.

(** ** [makeRot] from an angle and an axis *)

(** The value computed on finite arguments with a non-zero axis. *)
Lemma makeRot_Fin (a x y z : R) :
  x <> 0 \/ y <> 0 \/ z <> 0 ->
  makeRot (Fin a) (Fin x) (Fin y) (Fin z)
  = mkQuat (Fin (x * sin (0.5 * - a) * (1 / sqrt (x * x + y * y + z * z))))
           (Fin (y * sin (0.5 * - a) * (1 / sqrt (x * x + y * y + z * z))))
           (Fin (z * sin (0.5 * - a) * (1 / sqrt (x * x + y * y + z * z))))
           (Fin (cos (0.5 * - a))).
Proof.
  intros Hax. unfold makeRot. fin_eval.
  rewrite fsqrt_Fin by (left; apply sumsq3_pos, Hax).
  rewrite fdiv_Fin by (apply Rgt_not_eq, norm3_pos, Hax).
  fin_eval. reflexivity.
Qed.

(** The norm of what [makeRot] yields on a non-zero axis, and its
    independence of the length of the axis, in exact arithmetic. *)
Lemma makeRot_exact_unit (a x y z : R) :
  x <> 0 \/ y <> 0 \/ z <> 0 ->
  let n := sqrt (x * x + y * y + z * z) in
  let h := 0.5 * - a in
  makeRot (Fin a) (Fin x) (Fin y) (Fin z)
  = mkQuat (Fin (x * sin h / n)) (Fin (y * sin h / n)) (Fin (z * sin h / n))
           (Fin (cos h))
  /\ quat_norm (makeRot (Fin a) (Fin x) (Fin y) (Fin z)) = Fin 1
  /\ forall c : R, 0 < c ->
       makeRot (Fin a) (Fin (c * x)) (Fin (c * y)) (Fin (c * z))
       = makeRot (Fin a) (Fin x) (Fin y) (Fin z).
Proof.
  intros Hax n h.
  assert (Hn : 0 < n) by (apply norm3_pos, Hax).
  assert (Hnn : n * n = x * x + y * y + z * z) by apply norm3_sqr.
  assert (Hval : makeRot (Fin a) (Fin x) (Fin y) (Fin z)
                 = mkQuat (Fin (x * sin h / n)) (Fin (y * sin h / n))
                          (Fin (z * sin h / n)) (Fin (cos h))).
  { rewrite makeRot_Fin by exact Hax. fold n h.
    f_equal; f_equal; field; lra. }
  split; [exact Hval | split].
  - rewrite Hval. unfold quat_norm. fin_eval.
    assert (Hone : x * sin h / n * (x * sin h / n) + y * sin h / n * (y * sin h / n)
                   + z * sin h / n * (z * sin h / n) + cos h * cos h = 1).
    { assert (Hsc := sin2_cos2 h). unfold Rsqr in Hsc.
      replace (x * sin h / n * (x * sin h / n) + y * sin h / n * (y * sin h / n)
               + z * sin h / n * (z * sin h / n))
        with (sin h * sin h * ((x * x + y * y + z * z) / (n * n)))
        by (field; lra).
      rewrite <- Hnn.
      replace (n * n / (n * n)) with 1 by (field; lra). lra. }
    rewrite Hone, fsqrt_Fin by lra. now rewrite sqrt_1.
  - intros c Hc.
    assert (Hcax : c * x <> 0 \/ c * y <> 0 \/ c * z <> 0).
    { destruct Hax as [H | [H | H]]; [left | right; left | right; right];
        apply Rmult_integral_contrapositive_currified; lra. }
    rewrite (makeRot_Fin a (c * x) (c * y) (c * z)) by exact Hcax.
    rewrite makeRot_Fin by exact Hax.
    rewrite norm3_scale by exact Hc. fold n h.
    f_equal; f_equal; field; lra.
Qed.

(** An axis in the normal range is not zero. *)
Lemma normal_range_nonzero (x y z : R) :
  normal_range x y z -> x <> 0 \/ y <> 0 \/ z <> 0.
Proof.
  unfold normal_range, FLT_MIN. intros [Hlo _].
  destruct (Req_dec_T x 0) as [Hx | Hx]; [| now left].
  destruct (Req_dec_T y 0) as [Hy | Hy]; [| right; now left].
  destruct (Req_dec_T z 0) as [Hz | Hz]; [| right; now right].
  subst x y z. exfalso. lra.
Qed.

(** In the normal range the sum of squares is the exact one, and
    [makeRot_float] is [makeRot]. *)
Lemma makeRot_float_normal (a x y z : R) :
  normal_range x y z ->
  makeRot_float (Fin a) (Fin x) (Fin y) (Fin z)
  = makeRot (Fin a) (Fin x) (Fin y) (Fin z).
Proof.
  intros Hr. assert (Hax := normal_range_nonzero x y z Hr).
  unfold normal_range, FLT_MIN, FLT_MAX in Hr.
  unfold makeRot_float, makeRot, inversenorm_float. fin_eval.
  destruct (Rlt_dec FLT_MAX (x * x + y * y + z * z)) as [H | _];
    [unfold FLT_MAX in H; lra |].
  destruct (Rlt_dec (x * x + y * y + z * z) FLT_UNDERFLOW) as [H | _];
    [unfold FLT_UNDERFLOW in H; lra |].
  rewrite fsqrt_Fin by lra.
  rewrite fdiv_Fin by (apply Rgt_not_eq, norm3_pos, Hax).
  reflexivity.
Qed.

(** Above the range the inverse of the norm is 0 and the vector part
    vanishes. *)
Lemma makeRot_float_overflow (a x y z : R) :
  FLT_MAX < x * x + y * y + z * z ->
  makeRot_float (Fin a) (Fin x) (Fin y) (Fin z)
  = mkQuat (Fin 0) (Fin 0) (Fin 0) (Fin (cos (0.5 * - a))).
Proof.
  intros Hov. unfold makeRot_float, inversenorm_float. fin_eval.
  destruct (Rlt_dec FLT_MAX (x * x + y * y + z * z)) as [_ | H]; [| contradiction].
  fin_eval. f_equal; f_equal; ring.
Qed.

(** C1 (amended). For a finite angle [a] and an axis [(x,y,z)] whose
    squared length is a normal [float], [makeRot] negates the angle, sets
    the vector part to [axis * sin(h) / |axis|] and the scalar part to
    [cos(h)], [h] being half the negated angle; the result has Euclidean
    norm 1; and it is the same quaternion for the axis scaled by any
    positive [c] that keeps it in the normal range. *)
Theorem makeRot_unit_quaternion (a x y z : R) :
  normal_range x y z ->
  let n := sqrt (x * x + y * y + z * z) in
  let h := 0.5 * - a in
  makeRot_float (Fin a) (Fin x) (Fin y) (Fin z)
  = mkQuat (Fin (x * sin h / n)) (Fin (y * sin h / n)) (Fin (z * sin h / n))
           (Fin (cos h))
  /\ quat_norm (makeRot_float (Fin a) (Fin x) (Fin y) (Fin z)) = Fin 1
  /\ forall c : R, 0 < c -> normal_range (c * x) (c * y) (c * z) ->
       makeRot_float (Fin a) (Fin (c * x)) (Fin (c * y)) (Fin (c * z))
       = makeRot_float (Fin a) (Fin x) (Fin y) (Fin z).
Proof.
  intros Hr n h.
  assert (Hax := normal_range_nonzero x y z Hr).
  destruct (makeRot_exact_unit a x y z Hax) as (Hval & Hnorm & Hscale).
  rewrite makeRot_float_normal by exact Hr.
  split; [exact Hval | split; [exact Hnorm |]].
  intros c Hc Hrc. rewrite makeRot_float_normal by exact Hrc.
  apply Hscale. exact Hc.
Qed.

Lemma makeRot_unit_quaternion_witness :
  quat_norm (makeRot_float (Fin 1) (Fin 0) (Fin 0) (Fin 2)) = Fin 1.
Proof.
  apply (makeRot_unit_quaternion 1 0 0 2).
  unfold normal_range, FLT_MIN, FLT_MAX. lra.
Defined.

(** C1, as stated, fails for a long axis: for [(1e20, 0, 0)] the sum of
    squares exceeds [FLT_MAX], the inverse of the norm is 0 and the
    quaternion is [(0, 0, 0, cos 0.5)], of norm below 1; the unit axis
    [(1, 0, 0)] of the same direction gives another quaternion. *)
Lemma makeRot_long_axis :
  (100000000000000000000 <> 0 \/ 0 <> 0 \/ 0 <> 0)
  /\ makeRot_float (Fin 1) (Fin 100000000000000000000) (Fin 0) (Fin 0)
     = mkQuat (Fin 0) (Fin 0) (Fin 0) (Fin (cos (0.5 * - 1)))
  /\ ~ makeRot_unit_any_magnitude 1 100000000000000000000 0 0.
Proof.
  assert (Hval : makeRot_float (Fin 1) (Fin 100000000000000000000) (Fin 0) (Fin 0)
                 = mkQuat (Fin 0) (Fin 0) (Fin 0) (Fin (cos (0.5 * - 1))))
    by (apply makeRot_float_overflow; unfold FLT_MAX; lra).
  split; [left; lra | split; [exact Hval |]].
  intros [Hnorm _]. rewrite Hval in Hnorm.
  unfold quat_norm in Hnorm.
  cbn [QX QY QZ QW fmul fadd lift2] in Hnorm.
  assert (Hsc := sin2_cos2 (0.5 * - 1)). unfold Rsqr in Hsc.
  assert (Hsin : sin (0.5 * - 1) <> 0).
  { replace (0.5 * - 1) with (- (1 / 2)) by lra. rewrite sin_neg.
    assert (HPI := PI2_3_2).
    assert (0 < sin (1 / 2)) by (apply sin_gt_0; lra). lra. }
  assert (Hnn := Rle_0_sqr (cos (0.5 * - 1))). unfold Rsqr in Hnn.
  rewrite fsqrt_Fin in Hnorm by lra.
  injection Hnorm as Hs.
  match type of Hs with sqrt ?S = 1 =>
    assert (Hsq : sqrt S * sqrt S = S) by (apply sqrt_sqrt; lra) end.
  rewrite Hs in Hsq.
  assert (Hz : sin (0.5 * - 1) * sin (0.5 * - 1) = 0) by lra.
  apply Rmult_integral in Hz. destruct Hz; contradiction.
Qed.

(** ** [atan2] *)

(** With a positive first argument, [atan2] lies strictly between 0 and
    [PI]. *)
Lemma atan2_pos_range (s w : R) : 0 < s -> 0 < atan2 s w < PI.
Proof.
  intros Hs. unfold atan2.
  assert (HPI := PI_RGT_0).
  destruct (Rlt_dec 0 w) as [Hw | Hw].
  - assert (0 < s / w) by (apply Rdiv_lt_0_compat; lra).
    assert (Hinc := atan_increasing 0 (s / w) H). rewrite atan_0 in Hinc.
    assert (Hb := atan_bound (s / w)). lra.
  - destruct (Rlt_dec w 0) as [Hw' | Hw'].
    + destruct (Rle_dec 0 s) as [_ | Hn]; [| lra].
      assert (s / w < 0).
      { assert (Hi := Rinv_lt_0_compat w Hw'). unfold Rdiv. nra. }
      assert (Hinc := atan_increasing (s / w) 0 H). rewrite atan_0 in Hinc.
      assert (Hb := atan_bound (s / w)). lra.
    + destruct (Rlt_dec 0 s) as [_ | Hn]; [lra | lra].
Qed.

Lemma sqrt_inv_sqr (c : R) : 0 < c -> sqrt (/ c * / c) = / c.
Proof.
  intros Hc. apply sqrt_square. left. now apply Rinv_0_lt_compat.
Qed.

(** On the unit circle, [atan2 s c] is an angle of cosine [c] and sine
    [s]. *)
Lemma atan2_unit_circle (s c : R) :
  c * c + s * s = 1 -> cos (atan2 s c) = c /\ sin (atan2 s c) = s.
Proof.
  intros Hu. unfold atan2.
  destruct (Rlt_dec 0 c) as [Hc | Hc].
  - rewrite cos_atan, sin_atan.
    assert (Hsq : sqrt (1 + (s / c)²) = / c).
    { unfold Rsqr.
      replace (1 + s / c * (s / c)) with ((c * c + s * s) * (/ c * / c))
        by (field; lra).
      rewrite Hu, Rmult_1_l. now apply sqrt_inv_sqr. }
    rewrite Hsq. split; field; lra.
  - destruct (Rlt_dec c 0) as [Hc' | Hc'].
    + assert (Hsq : sqrt (1 + (s / c)²) = / (- c)).
      { unfold Rsqr.
        replace (1 + s / c * (s / c)) with ((c * c + s * s) * (/ (- c) * / (- c)))
          by (field; lra).
        rewrite Hu, Rmult_1_l. apply sqrt_inv_sqr. lra. }
      destruct (Rle_dec 0 s) as [Hs | Hs].
      * rewrite neg_cos, neg_sin, cos_atan, sin_atan, Hsq. split; field; lra.
      * rewrite cos_minus, sin_minus, cos_PI, sin_PI, cos_atan, sin_atan, Hsq.
        split; field; lra.
    + assert (c = 0) by lra. subst c.
      assert (Hs1 : s * s = 1) by lra.
      destruct (Rlt_dec 0 s) as [Hs | Hs].
      * rewrite cos_PI2, sin_PI2. split; [reflexivity | nra].
      * destruct (Rlt_dec s 0) as [Hs' | Hs'].
        -- rewrite cos_neg, sin_neg, cos_PI2, sin_PI2. split; [reflexivity | nra].
        -- nra.
Qed.

(** Two angles with the same cosine and the same sine differ by a multiple
    of [2 * PI]. *)
Lemma cos_sin_congruent (u v : R) :
  cos u = cos v -> sin u = sin v -> exists k : Z, u = v + 2 * IZR k * PI.
Proof.
  intros Hc Hs.
  assert (H1 : cos (2 * ((u - v) / 2)) = 1).
  { replace (2 * ((u - v) / 2)) with (u - v) by field.
    rewrite cos_minus, Hc, Hs. assert (H := sin2_cos2 v). unfold Rsqr in H. lra. }
  rewrite cos_2a_sin in H1.
  assert (H0 : sin ((u - v) / 2) = 0) by nra.
  destruct (sin_eq_0_0 _ H0) as [k Hk].
  exists k. lra.
Qed.

(** With a positive first and a negative second argument, [atan2] is in
    the second quadrant. *)
Lemma atan2_second_quadrant (s w : R) : 0 < s -> w < 0 -> PI / 2 < atan2 s w.
Proof.
  intros Hs Hw. unfold atan2.
  destruct (Rlt_dec 0 w) as [H | _]; [lra |].
  destruct (Rlt_dec w 0) as [_ | H]; [| lra].
  destruct (Rle_dec 0 s) as [_ | H]; [| lra].
  assert (Hb := atan_bound (s / w)). lra.
Qed.

(** ** [getRot] *)

(** The value computed on a finite quaternion with a non-zero vector
    part. *)
Lemma getRot_Fin (x y z w : R) :
  sqrt (x * x + y * y + z * z) <> 0 ->
  getRot (mkQuat (Fin x) (Fin y) (Fin z) (Fin w))
  = (Fin (2 * atan2 (sqrt (x * x + y * y + z * z)) w),
     mkVec3 (Fin (x / sqrt (x * x + y * y + z * z)))
            (Fin (y / sqrt (x * x + y * y + z * z)))
            (Fin (z / sqrt (x * x + y * y + z * z)))).
Proof.
  intros Hs. unfold getRot. fin_eval.
  assert (Hx := Rle_0_sqr x). assert (Hy := Rle_0_sqr y). assert (Hz := Rle_0_sqr z).
  unfold Rsqr in *.
  rewrite fsqrt_Fin by lra. fin_eval.
  rewrite !fdiv_Fin by exact Hs. reflexivity.
Qed.

(** The overload with three scalar outputs returns the same angle and the
    components of the same axis. *)
Lemma getRot_xyz_getRot (q : Quat) :
  getRot_xyz q
  = (fst (getRot q), v3x (snd (getRot q)), v3y (snd (getRot q)),
     v3z (snd (getRot q))).
Proof. reflexivity. Qed.

(** C7 (amended). For a finite quaternion [(x,y,z,w)] whose
    [s = sqrt (x^2+y^2+z^2)] is not zero, [getRot] returns the angle
    [2 * atan2 s w] and the axis [(x,y,z) / s]; the angle lies strictly
    between 0 and [2 * PI]. *)
Theorem getRot_angle_axis (x y z w : R) :
  let s := sqrt (x * x + y * y + z * z) in
  s <> 0 ->
  getRot (mkQuat (Fin x) (Fin y) (Fin z) (Fin w))
  = (Fin (2 * atan2 s w), mkVec3 (Fin (x / s)) (Fin (y / s)) (Fin (z / s)))
  /\ 0 < 2 * atan2 s w < 2 * PI.
Proof.
  intros s Hs. split.
  - apply getRot_Fin. exact Hs.
  - assert (Hpos : 0 < s).
    { destruct (sqrt_pos (x * x + y * y + z * z)) as [H | H]; [exact H |].
      elim Hs. symmetry. exact H. }
    assert (Hr := atan2_pos_range s w Hpos). lra.
Qed.

Lemma getRot_angle_axis_witness :
  0 < 2 * atan2 (sqrt (1 * 1 + 0 * 0 + 0 * 0)) (-1) < 2 * PI.
Proof.
  apply (getRot_angle_axis 1 0 0 (-1)).
  replace (1 * 1 + 0 * 0 + 0 * 0) with 1 by ring. rewrite sqrt_1. lra.
Defined.

(** C7, as stated, fails: for the quaternion [(1,0,0,-1)] the angle
    returned is [3 * PI / 2], which is not between [- PI] and [PI]. *)
Lemma getRot_angle_exceeds_PI : ~ getRot_angle_within_PI 1 0 0 (-1).
Proof.
  intros [angle [_ [Hangle [_ Hub]]]].
  replace (1 * 1 + 0 * 0 + 0 * 0) with 1 in Hangle by ring.
  rewrite sqrt_1 in Hangle.
  assert (Hq := atan2_second_quadrant 1 (-1)). lra.
Qed.

(** ** The round trip angle/axis -> quaternion -> angle/axis *)

(** The length of the vector part of [makeRot a (x,y,z)] is [|sin h|]. *)
Lemma makeRot_vector_norm (x y z sh : R) :
  x <> 0 \/ y <> 0 \/ z <> 0 ->
  let i := 1 / sqrt (x * x + y * y + z * z) in
  sqrt (x * sh * i * (x * sh * i) + y * sh * i * (y * sh * i)
        + z * sh * i * (z * sh * i)) = Rabs sh.
Proof.
  intros Hax i. subst i.
  assert (Hn := norm3_pos x y z Hax). assert (Hnn := norm3_sqr x y z).
  set (n := sqrt (x * x + y * y + z * z)) in *.
  replace (x * sh * (1 / n) * (x * sh * (1 / n)) + y * sh * (1 / n) * (y * sh * (1 / n))
           + z * sh * (1 / n) * (z * sh * (1 / n)))
    with (sh * sh * ((x * x + y * y + z * z) / (n * n))) by (field; lra).
  rewrite <- Hnn. replace (n * n / (n * n)) with 1 by (field; lra).
  rewrite Rmult_1_r. apply sqrt_Rsqr_abs.
Qed.

(** An angle that is no multiple of [2 * PI] has a half angle of non-zero
    sine. *)
Lemma sin_half_neg_nonzero (a : R) :
  ~ congruent_2PI a 0 -> sin (0.5 * - a) <> 0.
Proof.
  intros Hnc H0. apply Hnc.
  destruct (sin_eq_0_0 _ H0) as [k Hk].
  exists (- k)%Z. rewrite opp_IZR. lra.
Qed.

(** The round trip in exact arithmetic: for an angle [a] that is no
    multiple of [2 * PI] and a non-zero axis, [getRot] after [makeRot]
    returns the unit vector along the axis with an angle congruent to
    [- a] modulo [2 * PI], or the opposite unit vector with an angle
    congruent to [a]. *)
Lemma getRot_makeRot_exact (a x y z : R) :
  ~ congruent_2PI a 0 ->
  x <> 0 \/ y <> 0 \/ z <> 0 ->
  angle_axis_roundtrip a x y z.
Proof.
  intros Hnc Hax. unfold angle_axis_roundtrip, makeRot_axis. fin_eval.
  rewrite makeRot_Fin by exact Hax.
  assert (Hsh := sin_half_neg_nonzero a Hnc).
  assert (Hvn := makeRot_vector_norm x y z (sin (0.5 * - a)) Hax).
  assert (Hn := norm3_pos x y z Hax).
  cbv zeta in Hvn.
  set (n := sqrt (x * x + y * y + z * z)) in *.
  set (h := 0.5 * - a) in *.
  assert (Hu : cos h * cos h + sin h * sin h = 1).
  { assert (H := sin2_cos2 h). unfold Rsqr in H. lra. }
  rewrite getRot_Fin by (rewrite Hvn; now apply Rabs_no_R0).
  rewrite Hvn.
  do 4 eexists. split; [reflexivity |].
  destruct (Rlt_dec 0 (sin h)) as [Hpos | Hneg].
  - left. rewrite Rabs_right by lra.
    destruct (atan2_unit_circle (sin h) (cos h) Hu) as [Hc Hs].
    destruct (cos_sin_congruent _ _ Hc Hs) as [k Hk].
    repeat split; try (field; lra).
    exists (2 * k)%Z. rewrite mult_IZR, Hk. unfold h. lra.
  - right. assert (Hlt : sin h < 0) by lra.
    rewrite Rabs_left by exact Hlt.
    assert (Hu' : cos (- h) * cos (- h) + sin (- h) * sin (- h) = 1).
    { rewrite cos_neg, sin_neg. lra. }
    destruct (atan2_unit_circle (sin (- h)) (cos (- h)) Hu') as [Hc Hs].
    destruct (cos_sin_congruent _ _ Hc Hs) as [k Hk].
    rewrite cos_neg, sin_neg in Hk.
    repeat split; try (field; lra).
    exists (2 * k)%Z. rewrite mult_IZR, Hk. unfold h. lra.
Qed.

(** A half angle whose sine is not zero is not a multiple of [PI]. *)
Lemma half_sine_not_multiple (a : R) :
  FLT_MIN <= sin (a / 2) * sin (a / 2) -> ~ congruent_2PI a 0.
Proof.
  intros Hs [k Hk].
  assert (H0 : sin (a / 2) = 0).
  { apply sin_eq_0_1. exists k. lra. }
  rewrite H0 in Hs. unfold FLT_MIN in Hs. lra.
Qed.

(** C2 (amended). For an axis [(x,y,z)] whose squared length is a normal
    [float] and an angle [a] the square of whose half-angle sine is a normal
    [float] (so that [a] is no multiple of [2 * PI]), [getRot] after
    [makeRot] returns finite values: the unit vector along the axis with an
    angle congruent to [- a] modulo [2 * PI], or the opposite unit vector
    with an angle congruent to [a]. *)
Theorem getRot_makeRot_roundtrip (a x y z : R) :
  normal_range x y z ->
  FLT_MIN <= sin (a / 2) * sin (a / 2) ->
  angle_axis_roundtrip a x y z.
Proof.
  intros Hr Hs. apply getRot_makeRot_exact.
  - apply half_sine_not_multiple. exact Hs.
  - apply normal_range_nonzero. exact Hr.
Qed.

Lemma getRot_makeRot_roundtrip_witness : angle_axis_roundtrip (PI / 2) 0 0 1.
Proof.
  apply (getRot_makeRot_roundtrip (PI / 2) 0 0 1).
  - unfold normal_range, FLT_MIN, FLT_MAX. lra.
  - replace (PI / 2 / 2) with (PI / 4) by field.
    rewrite sin_PI4.
    replace (1 / sqrt 2 * (1 / sqrt 2)) with (1 / (sqrt 2 * sqrt 2))
      by (field; apply Rgt_not_eq, Rlt_sqrt2_0).
    rewrite sqrt_sqrt by lra. unfold FLT_MIN. lra.
Defined.

(** ** Degenerate inputs *)

(** A zero angle about the first axis: the identity quaternion. *)
Lemma makeRot_zero_angle :
  makeRot (Fin 0) (Fin 1) (Fin 0) (Fin 0)
  = mkQuat (Fin 0) (Fin 0) (Fin 0) (Fin 1).
Proof.
  rewrite makeRot_Fin by (left; lra).
  replace (0.5 * - 0) with 0 by lra. rewrite sin_0, cos_0.
  f_equal; f_equal; ring.
Qed.

(** [getRot] on the identity quaternion: the angle is 0, the axis is the
    quotient of the zero vector by zero. *)
Lemma getRot_identity :
  getRot (mkQuat (Fin 0) (Fin 0) (Fin 0) (Fin 1))
  = (Fin 0, mkVec3 NonFin NonFin NonFin).
Proof.
  unfold getRot. fin_eval.
  replace (0 * 0 + 0 * 0 + 0 * 0) with 0 by ring.
  rewrite fsqrt_Fin by lra. rewrite sqrt_0. fin_eval.
  rewrite fdiv_zero. f_equal. f_equal.
  unfold atan2. destruct (Rlt_dec 0 1) as [_ | H]; [| lra].
  replace (0 / 1) with 0 by field. rewrite atan_0. ring.
Qed.

(** X26. [makeRot] on a zero axis, for every finite angle: the three
    components of the vector part are not finite (each is [0 * sin * (1/0)]),
    the scalar part is the cosine all the same. *)
Theorem makeRot_zero_axis (a : R) :
  makeRot (Fin a) (Fin 0) (Fin 0) (Fin 0)
  = mkQuat NonFin NonFin NonFin (Fin (cos (0.5 * - a))).
Proof.
  unfold makeRot. fin_eval.
  replace (0 * 0 + 0 * 0 + 0 * 0) with 0 by ring.
  rewrite fsqrt_Fin by lra. rewrite sqrt_0, fdiv_zero. reflexivity.
Qed.

(** C2, as stated, fails at the angle 0: [makeRot 0 (1,0,0)] is the
    identity quaternion, for which [getRot] returns no finite axis, hence
    none parallel to [(1,0,0)]. *)
Lemma getRot_makeRot_zero_angle :
  snd (getRot (makeRot_axis (Fin 0) (mkVec3 (Fin 1) (Fin 0) (Fin 0))))
  = mkVec3 NonFin NonFin NonFin
  /\ ~ angle_axis_roundtrip 0 1 0 0.
Proof.
  assert (Hval : getRot (makeRot_axis (Fin 0) (mkVec3 (Fin 1) (Fin 0) (Fin 0)))
                 = (Fin 0, mkVec3 NonFin NonFin NonFin)).
  { unfold makeRot_axis. fin_eval. rewrite makeRot_zero_angle. apply getRot_identity. }
  split.
  - now rewrite Hval.
  - intros (angle' & ax & ay & az & Heq & _).
    rewrite Hval in Heq. discriminate Heq.
Qed.

(** ** [makeRot] from one vector to another *)

(** The position found is the first one of largest magnitude. *)
Lemma biggest_posn_spec (x y z : R) :
  let p := biggest_posn (mkVec3 (Fin x) (Fin y) (Fin z)) in
  (p = 0%nat /\ Rabs y <= Rabs x /\ Rabs z <= Rabs x)
  \/ (p = 1%nat /\ Rabs x < Rabs y /\ Rabs z <= Rabs y)
  \/ (p = 2%nat /\ Rabs x < Rabs z /\ Rabs y < Rabs z).
Proof.
  unfold biggest_posn, fgt, flt. fin_eval.
  destruct (Rlt_dec (Rabs x) (Rabs y)) as [Hxy | Hxy];
    destruct (Rlt_dec _ (Rabs z)) as [Hz | Hz]; cbv zeta.
  - right; right. repeat split; lra.
  - right; left. repeat split; lra.
  - right; right. repeat split; lra.
  - left. repeat split; lra.
Qed.

(** The axis of the opposite-vectors branch, by the position found. *)
Lemma opposite_axis_Fin (x y z : R) :
  opposite_axis (mkVec3 (Fin x) (Fin y) (Fin z))
  = match biggest_posn (mkVec3 (Fin x) (Fin y) (Fin z)) with
    | 0%nat => mkVec3 (Fin (y * 1 - z * 1)) (Fin (z * 0 - x * 1)) (Fin (x * 1 - y * 0))
    | 1%nat => mkVec3 (Fin (y * 1 - z * 0)) (Fin (z * 1 - x * 1)) (Fin (x * 0 - y * 1))
    | _ => mkVec3 (Fin (y * 0 - z * 1)) (Fin (z * 1 - x * 0)) (Fin (x * 1 - y * 1))
    end.
Proof.
  unfold opposite_axis.
  destruct (biggest_posn _) as [| [| p]]; reflexivity.
Qed.

Lemma Rabs_pos_nonzero (x : R) : 0 < Rabs x -> x <> 0.
Proof. intros H Hx. subst x. rewrite Rabs_R0 in H. lra. Qed.

(** The component of largest magnitude of a non-zero vector is not
    zero. *)
Lemma biggest_nonzero (x y z b : R) :
  x <> 0 \/ y <> 0 \/ z <> 0 ->
  Rabs x <= Rabs b -> Rabs y <= Rabs b -> Rabs z <= Rabs b -> b <> 0.
Proof.
  intros Hax Hx Hy Hz. apply Rabs_pos_nonzero.
  destruct Hax as [H | [H | H]]; apply Rabs_pos_lt in H; lra.
Qed.

(** C10. For a finite non-zero [from], the axis built in the
    opposite-vectors branch is finite and not zero, so that the norm
    [makeRot] divides by is a non-zero finite value and the quaternion it
    yields is finite. *)
Theorem opposite_axis_nonzero (x y z : R) :
  x <> 0 \/ y <> 0 \/ z <> 0 ->
  exists ax ay az : R,
    opposite_axis (mkVec3 (Fin x) (Fin y) (Fin z))
    = mkVec3 (Fin ax) (Fin ay) (Fin az)
    /\ (ax <> 0 \/ ay <> 0 \/ az <> 0)
    /\ fsqrt (Fin ax * Fin ax + Fin ay * Fin ay + Fin az * Fin az)%fl
       = Fin (sqrt (ax * ax + ay * ay + az * az))
    /\ sqrt (ax * ax + ay * ay + az * az) <> 0
    /\ quat_finite
         (makeRot_axis (Fin PI) (opposite_axis (mkVec3 (Fin x) (Fin y) (Fin z)))).
Proof.
  intros Hax.
  assert (Hkey : exists ax ay az : R,
             opposite_axis (mkVec3 (Fin x) (Fin y) (Fin z))
             = mkVec3 (Fin ax) (Fin ay) (Fin az)
             /\ (ax <> 0 \/ ay <> 0 \/ az <> 0)).
  { rewrite opposite_axis_Fin.
    destruct (biggest_posn_spec x y z) as [[Hp [H1 H2]] | [[Hp [H1 H2]] | [Hp [H1 H2]]]];
      cbv zeta in Hp; rewrite Hp; do 3 eexists; (split; [reflexivity |]).
    - assert (x <> 0) by (apply (biggest_nonzero x y z x Hax); lra).
      right; left. lra.
    - assert (y <> 0) by (apply (biggest_nonzero x y z y Hax); lra).
      left. lra.
    - assert (z <> 0) by (apply (biggest_nonzero x y z z Hax); lra).
      left. lra. }
  destruct Hkey as (ax & ay & az & Heq & Hnz).
  exists ax, ay, az. split; [exact Heq | split; [exact Hnz |]].
  assert (Hpos := sumsq3_pos ax ay az Hnz).
  split; [| split].
  - fin_eval. apply fsqrt_Fin. lra.
  - apply Rgt_not_eq, norm3_pos, Hnz.
  - rewrite Heq. unfold makeRot_axis. fin_eval.
    rewrite makeRot_Fin by exact Hnz. repeat split.
Qed.

Lemma opposite_axis_nonzero_witness :
  exists ax ay az : R,
    opposite_axis (mkVec3 (Fin 1) (Fin 0) (Fin 0))
    = mkVec3 (Fin ax) (Fin ay) (Fin az)
    /\ (ax <> 0 \/ ay <> 0 \/ az <> 0)
    /\ fsqrt (Fin ax * Fin ax + Fin ay * Fin ay + Fin az * Fin az)%fl
       = Fin (sqrt (ax * ax + ay * ay + az * az))
    /\ sqrt (ax * ax + ay * ay + az * az) <> 0
    /\ quat_finite
         (makeRot_axis (Fin PI) (opposite_axis (mkVec3 (Fin 1) (Fin 0) (Fin 0)))).
Proof.
  apply (opposite_axis_nonzero 1 0 0). left. lra.
Defined.

(** Cauchy-Schwarz: the cosine computed for two non-zero vectors is between
    -1 and 1. *)
Lemma cosangle_range (x1 y1 z1 x2 y2 z2 : R) :
  x1 <> 0 \/ y1 <> 0 \/ z1 <> 0 ->
  x2 <> 0 \/ y2 <> 0 \/ z2 <> 0 ->
  -1 <= (x1 * x2 + y1 * y2 + z1 * z2)
        / (sqrt (x1 * x1 + y1 * y1 + z1 * z1) * sqrt (x2 * x2 + y2 * y2 + z2 * z2))
     <= 1.
Proof.
  intros H1 H2.
  assert (Hl1 := norm3_pos _ _ _ H1). assert (Hl2 := norm3_pos _ _ _ H2).
  assert (Hs1 := norm3_sqr x1 y1 z1). assert (Hs2 := norm3_sqr x2 y2 z2).
  set (l1 := sqrt (x1 * x1 + y1 * y1 + z1 * z1)) in *.
  set (l2 := sqrt (x2 * x2 + y2 * y2 + z2 * z2)) in *.
  set (d := x1 * x2 + y1 * y2 + z1 * z2).
  assert (HL : 0 < l1 * l2) by (apply Rmult_lt_0_compat; assumption).
  assert (Hcs : d * d <= (l1 * l2) * (l1 * l2)).
  { replace (l1 * l2 * (l1 * l2)) with ((l1 * l1) * (l2 * l2)) by ring.
    rewrite Hs1, Hs2. unfold d.
    assert (Ha := Rle_0_sqr (x1 * y2 - x2 * y1)).
    assert (Hb := Rle_0_sqr (x1 * z2 - x2 * z1)).
    assert (Hc := Rle_0_sqr (y1 * z2 - y2 * z1)).
    unfold Rsqr in *. lra. }
  assert (Hd : - (l1 * l2) <= d <= l1 * l2) by nra.
  assert (Hi : 0 < / (l1 * l2)) by now apply Rinv_0_lt_compat.
  assert (Hr : l1 * l2 * / (l1 * l2) = 1) by (apply Rinv_r; lra).
  unfold Rdiv. nra.
Qed.

(** The three regimes of [makeRot_fromto] on finite non-zero vectors. *)
Lemma makeRot_fromto_Fin (x1 y1 z1 x2 y2 z2 : R) :
  x1 <> 0 \/ y1 <> 0 \/ z1 <> 0 ->
  x2 <> 0 \/ y2 <> 0 \/ z2 <> 0 ->
  let from := mkVec3 (Fin x1) (Fin y1) (Fin z1) in
  let to := mkVec3 (Fin x2) (Fin y2) (Fin z2) in
  let cosangle :=
    (x1 * x2 + y1 * y2 + z1 * z2)
    / (sqrt (x1 * x1 + y1 * y1 + z1 * z1) * sqrt (x2 * x2 + y2 * y2 + z2 * z2)) in
  makeRot_fromto from to
  = if Rlt_dec (Rabs (cosangle - 1)) epsilon then
      makeRot (Fin 0) (Fin 1) (Fin 0) (Fin 0)
    else if Rlt_dec (Rabs (cosangle + 1)) epsilon then
      makeRot_axis (Fin PI) (opposite_axis from)
    else makeRot_axis (Fin (acos cosangle)) (cross from to).
Proof.
  intros H1 H2 from to cosangle.
  assert (Hl1 := norm3_pos _ _ _ H1). assert (Hl2 := norm3_pos _ _ _ H2).
  assert (Hrange := cosangle_range _ _ _ _ _ _ H1 H2). fold cosangle in Hrange.
  unfold makeRot_fromto, from, to. fin_eval.
  rewrite !fsqrt_Fin by (left; apply sumsq3_pos; assumption). fin_eval.
  rewrite fdiv_Fin by (apply Rgt_not_eq, Rmult_lt_0_compat; assumption).
  fold cosangle. fin_eval.
  unfold flt.
  destruct (Rlt_dec (Rabs (cosangle - 1)) epsilon); [reflexivity |].
  destruct (Rlt_dec (Rabs (cosangle + 1)) epsilon) as [| Hfar]; [reflexivity |].
  rewrite facos_Fin; [reflexivity |].
  split; [| lra].
  destruct Hrange as [[Hlt | Heq] _]; [exact Hlt |].
  exfalso. apply Hfar. rewrite <- Heq.
  replace (-1 + 1) with 0 by ring. rewrite Rabs_R0. unfold epsilon. lra.
Qed.

(** C6. On finite non-zero vectors [makeRot_fromto] dispatches on
    [cosangle = dot(from,to) / (|from| * |to|)] with [epsilon = 1e-5]:
    when [|cosangle - 1| < epsilon] it returns the identity quaternion
    [(0,0,0,1)]; when [|cosangle + 1| < epsilon] it rotates by [PI] about
    [cross(from, h)], [h] being [(1,1,1)] with a zero at the position of a
    component of [from] of largest magnitude; otherwise it calls
    [makeRot] with the angle [acos(cosangle)] and the axis
    [cross(from, to)].  In particular it maps [(v, v)] to the identity
    quaternion. *)
Theorem makeRot_fromto_dispatch (x1 y1 z1 x2 y2 z2 : R) :
  x1 <> 0 \/ y1 <> 0 \/ z1 <> 0 ->
  x2 <> 0 \/ y2 <> 0 \/ z2 <> 0 ->
  let from := mkVec3 (Fin x1) (Fin y1) (Fin z1) in
  let to := mkVec3 (Fin x2) (Fin y2) (Fin z2) in
  let cosangle :=
    (x1 * x2 + y1 * y2 + z1 * z2)
    / (sqrt (x1 * x1 + y1 * y1 + z1 * z1) * sqrt (x2 * x2 + y2 * y2 + z2 * z2)) in
  epsilon = 1 / 100000
  /\ (Rabs (cosangle - 1) < epsilon ->
      makeRot_fromto from to = mkQuat (Fin 0) (Fin 0) (Fin 0) (Fin 1))
  /\ (Rabs (cosangle + 1) < epsilon ->
      exists (p : nat) (b : R),
        (p < 3)%nat /\ vget from p = Fin b
        /\ Rabs x1 <= Rabs b /\ Rabs y1 <= Rabs b /\ Rabs z1 <= Rabs b
        /\ makeRot_fromto from to
           = makeRot_axis (Fin PI)
               (cross from (vset (mkVec3 (Fin 1) (Fin 1) (Fin 1)) p (Fin 0))))
  /\ (~ Rabs (cosangle - 1) < epsilon -> ~ Rabs (cosangle + 1) < epsilon ->
      makeRot_fromto from to = makeRot_axis (Fin (acos cosangle)) (cross from to))
  /\ makeRot_fromto from from = mkQuat (Fin 0) (Fin 0) (Fin 0) (Fin 1).
Proof.
  intros H1 H2 from to cosangle.
  assert (Heval := makeRot_fromto_Fin _ _ _ _ _ _ H1 H2).
  cbv zeta in Heval. fold from to cosangle in Heval.
  split; [unfold epsilon; lra |].
  split; [| split; [| split]].
  - intros Hc. rewrite Heval.
    destruct (Rlt_dec (Rabs (cosangle - 1)) epsilon); [| contradiction].
    apply makeRot_zero_angle.
  - intros Hc.
    assert (Hfar : ~ Rabs (cosangle - 1) < epsilon).
    { unfold epsilon in *. intros Hc1.
      apply Rabs_def2 in Hc. apply Rabs_def2 in Hc1. lra. }
    rewrite Heval.
    destruct (Rlt_dec (Rabs (cosangle - 1)) epsilon); [contradiction |].
    destruct (Rlt_dec (Rabs (cosangle + 1)) epsilon); [| contradiction].
    unfold opposite_axis.
    destruct (biggest_posn_spec x1 y1 z1) as [[Hp [Ha Hb]] | [[Hp [Ha Hb]] | [Hp [Ha Hb]]]];
      cbv zeta in Hp; fold from in Hp; exists (biggest_posn from); rewrite Hp.
    + exists x1. repeat split; try reflexivity; try lra; lia.
    + exists y1. repeat split; try reflexivity; try lra; lia.
    + exists z1. repeat split; try reflexivity; try lra; lia.
  - intros Hn1 Hn2. rewrite Heval.
    destruct (Rlt_dec (Rabs (cosangle - 1)) epsilon); [contradiction |].
    destruct (Rlt_dec (Rabs (cosangle + 1)) epsilon); [contradiction | reflexivity].
  - assert (Hself := makeRot_fromto_Fin _ _ _ _ _ _ H1 H1).
    cbv zeta in Hself. fold from in Hself. rewrite Hself.
    assert (Hl := norm3_pos _ _ _ H1). assert (Hs := norm3_sqr x1 y1 z1).
    set (l := sqrt (x1 * x1 + y1 * y1 + z1 * z1)) in *.
    rewrite <- Hs.
    replace (l * l / (l * l) - 1) with 0 by (field; lra).
    rewrite Rabs_R0.
    destruct (Rlt_dec 0 epsilon) as [_ | Hn]; [apply makeRot_zero_angle |].
    elim Hn. unfold epsilon. lra.
Qed.

Lemma makeRot_fromto_dispatch_witness :
  makeRot_fromto (mkVec3 (Fin 0) (Fin 2) (Fin 0)) (mkVec3 (Fin 0) (Fin 2) (Fin 0))
  = mkQuat (Fin 0) (Fin 0) (Fin 0) (Fin 1).
Proof.
  apply (makeRot_fromto_dispatch 0 2 0 0 2 0); right; left; lra.
Defined.

(** ** [slerp] *)

Section Slerp.

Variables (t fx fy fz fw tx ty tz tw : R).

Let from := qfin fx fy fz fw.
Let to := qfin tx ty tz tw.
Let cosomega := fx * tx + fy * ty + fz * tz + fw * tw.

(** The ends are close: linear weights. *)
Lemma slerp_linear :
  ~ epsilon < 1 - cosomega ->
  slerp (Fin t) from to = blend fx fy fz fw (1 - t) tx ty tz tw t.
Proof.
  intros Hc. unfold slerp, from, to, qfin. fin_eval. fold cosomega.
  unfold fgt. rewrite flt_false by exact Hc. fin_eval. reflexivity.
Qed.

(** The usual case: spherical weights. *)
Lemma slerp_spherical :
  epsilon < 1 - cosomega -> -1 < cosomega ->
  slerp (Fin t) from to
  = blend fx fy fz fw (sin ((1 - t) * acos cosomega) / sin (acos cosomega))
          tx ty tz tw (sin (t * acos cosomega) / sin (acos cosomega)).
Proof.
  intros Hc Hlo.
  assert (Hhi : cosomega < 1) by (unfold epsilon in Hc; lra).
  assert (Hsin : sin (acos cosomega) <> 0).
  { apply Rgt_not_eq, sin_gt_0; apply acos_bound_lt; lra. }
  unfold slerp, from, to, qfin. fin_eval. fold cosomega.
  unfold fgt. rewrite flt_true by exact Hc.
  rewrite facos_Fin by lra. fin_eval.
  rewrite !fdiv_Fin by exact Hsin. fin_eval. reflexivity.
Qed.

(** Opposite ends: [omega] is the double nearest [PI], whose sine is not
    zero, and the weights are finite. *)
Lemma slerp_antipodal :
  cosomega = -1 ->
  slerp (Fin t) from to
  = blend fx fy fz fw (sin ((1 - t) * M_PI_double) / sin M_PI_double)
          tx ty tz tw (sin (t * M_PI_double) / sin M_PI_double).
Proof.
  intros Hc.
  assert (Hsin := sin_M_PI_double).
  unfold slerp, from, to, qfin. fin_eval. fold cosomega. rewrite Hc.
  unfold fgt. rewrite flt_true by (unfold epsilon; lra).
  rewrite facos_minus_one. fin_eval.
  rewrite !fdiv_Fin by lra. fin_eval. reflexivity.
Qed.

End Slerp.

(** [slerp] computes what the specification describes, on all values. *)
Lemma slerp_refines_spec (t : float) (from to : Quat) :
  slerp t from to = slerp_spec t from to.
Proof.
  unfold slerp, slerp_spec, epsilon. fin_eval.
  replace 0.00001 with (1 / 100000) by lra.
  destruct (fgt _ _); reflexivity.
Qed.

(** An arc cosine of a negative number is more than a right angle. *)
Lemma acos_negative (c : R) : -1 <= c < 0 -> PI / 2 < acos c.
Proof.
  intros Hc.
  assert (Hb := acos_bound c).
  assert (Hcos := cos_acos c). 
  destruct (Rlt_dec (PI / 2) (acos c)) as [H | H]; [exact H |].
  assert (0 <= cos (acos c)) by (apply cos_ge_0; lra).
  lra.
Qed.

(** C5. [slerp] takes the 4-component dot product as [cosomega]; when
    [1 - cosomega > 1e-5] the result is
    [from * sin((1-t) omega) / sin(omega) + to * sin(t omega) / sin(omega)]
    with [omega = acos(cosomega)], otherwise [from * (1-t) + to * t].  The
    blend is returned as it is, without renormalisation: half way between
    two close unit quaternions its norm is not 1.  The sign of [cosomega]
    plays no part: a negative one takes the spherical weights, with an
    [omega] beyond a right angle. *)
Theorem slerp_blend_formula (t fx fy fz fw tx ty tz tw : R) :
  let cosomega := fx * tx + fy * ty + fz * tz + fw * tw in
  let omega := acos cosomega in
  (forall (t' : float) (from to : Quat), slerp t' from to = slerp_spec t' from to)
  /\ (1 - cosomega > 1 / 100000 -> -1 < cosomega ->
      slerp (Fin t) (qfin fx fy fz fw) (qfin tx ty tz tw)
      = blend fx fy fz fw (sin ((1 - t) * omega) / sin omega)
              tx ty tz tw (sin (t * omega) / sin omega))
  /\ (~ 1 - cosomega > 1 / 100000 ->
      slerp (Fin t) (qfin fx fy fz fw) (qfin tx ty tz tw)
      = blend fx fy fz fw (1 - t) tx ty tz tw t)
  /\ (-1 < cosomega < 0 ->
      PI / 2 < omega
      /\ slerp (Fin t) (qfin fx fy fz fw) (qfin tx ty tz tw)
         = blend fx fy fz fw (sin ((1 - t) * omega) / sin omega)
                 tx ty tz tw (sin (t * omega) / sin omega))
  /\ (unit4 0 0 0 1
      /\ unit4 (2000 / 1000001) 0 0 (999999 / 1000001)
      /\ quat_norm (slerp (Fin 0.5) (qfin 0 0 0 1)
                          (qfin (2000 / 1000001) 0 0 (999999 / 1000001)))
         <> Fin 1).
Proof.
  intros cosomega omega.
  split; [exact slerp_refines_spec |].
  split; [| split; [| split]].
  - intros Hc Hlo. apply slerp_spherical; [unfold epsilon |]; fold cosomega; lra.
  - intros Hc. apply slerp_linear. unfold epsilon. fold cosomega. lra.
  - intros [Hlo Hneg]. split.
    + apply acos_negative. lra.
    + apply slerp_spherical; [unfold epsilon |]; fold cosomega; lra.
  - split; [unfold unit4; lra | split; [unfold unit4; lra |]].
    rewrite slerp_linear by (unfold epsilon; lra).
    unfold blend, qfin, quat_norm. fin_eval.
    rewrite fsqrt_Fin by lra.
    intros Heq. injection Heq as Hs.
    match type of Hs with sqrt ?S = 1 =>
      assert (Hsq : sqrt S * sqrt S = S) by (apply sqrt_sqrt; lra) end.
    rewrite Hs in Hsq. lra.
Qed.

Lemma slerp_blend_formula_witness :
  slerp (Fin 0.5) (qfin 0 0 0 1) (qfin 1 0 0 0)
  = blend 0 0 0 1 (sin ((1 - 0.5) * acos 0) / sin (acos 0))
          1 0 0 0 (sin (0.5 * acos 0) / sin (acos 0)).
Proof.
  assert (H := proj1 (proj2 (slerp_blend_formula 0.5 0 0 0 1 1 0 0 0))).
  cbv zeta in H.
  replace (0 * 1 + 0 * 0 + 0 * 0 + 1 * 0) with 0 in H by ring.
  apply H; lra.
Defined.





(** ** [set]: from a matrix to a quaternion *)

(** The index chosen in the second branch is the one of the largest
    diagonal entry. *)
Lemma largest_diag_spec (M : nat -> nat -> R) :
  let i := largest_diag (mfin M) in
  (i = 0%nat /\ M 1%nat 1%nat <= M 0%nat 0%nat /\ M 2%nat 2%nat <= M 0%nat 0%nat)
  \/ (i = 1%nat /\ M 0%nat 0%nat < M 1%nat 1%nat /\ M 2%nat 2%nat <= M 1%nat 1%nat)
  \/ (i = 2%nat /\ M 0%nat 0%nat < M 2%nat 2%nat /\ M 1%nat 1%nat < M 2%nat 2%nat).
Proof.
  unfold largest_diag, fgt, flt, mget, mfin.
  destruct (Rlt_dec (M 0%nat 0%nat) (M 1%nat 1%nat)) as [H01 | H01];
    destruct (Rlt_dec _ (M 2%nat 2%nat)) as [H2 | H2]; cbv zeta.
  - right; right. repeat split; lra.
  - right; left. repeat split; lra.
  - right; right. repeat split; lra.
  - left. repeat split; lra.
Qed.

(** What the second branch computes from [i] and a finite [s]: the
    reciprocal is taken for a non-zero [s] only. *)
Lemma set_from_s_Fin (M : nat -> nat -> R) (i : nat) (s : R) :
  (i < 3)%nat ->
  let j := nxt i in
  let k := nxt j in
  let s' := if Req_dec_T s 0 then s else 0.5 / s in
  let tq := aset indeterminate i (Fin (s * 0.5)) in
  let tq := aset tq 3 (Fin ((M j k - M k j) * s')) in
  let tq := aset tq j (Fin ((M i j + M j i) * s')) in
  let tq := aset tq k (Fin ((M i k + M k i) * s')) in
  set_from_s (mfin M) i (Fin s)
  = mkQuat (tq 0%nat) (tq 1%nat) (tq 2%nat) (tq 3%nat).
Proof.
  intros Hi. cbv zeta. unfold set_from_s.
  destruct (Req_dec_T s 0) as [Hs | Hs].
  - subst s. rewrite fne_same. set_eval. reflexivity.
  - rewrite fne_true by exact Hs. rewrite fdiv_Fin by exact Hs.
    set_eval. reflexivity.
Qed.

Lemma set_from_s_finite (M : nat -> nat -> R) (i : nat) (s : R) :
  (i < 3)%nat -> quat_finite (set_from_s (mfin M) i (Fin s)).
Proof.
  intros Hi. rewrite set_from_s_Fin by exact Hi.
  destruct i as [| [| [| i]]]; [| | | lia];
    unfold quat_finite, aset, nxt; cbn; repeat split.
Qed.

Lemma set_from_s_zero (M : nat -> nat -> R) (i : nat) :
  (i < 3)%nat -> set_from_s (mfin M) i (Fin 0) = qfin 0 0 0 0.
Proof.
  intros Hi. rewrite set_from_s_Fin by exact Hi.
  destruct (Req_dec_T 0 0) as [_ | H]; [| now elim H].
  destruct i as [| [| [| i]]]; [| | | lia];
    unfold qfin, aset, nxt; cbn; f_equal; f_equal; ring.
Qed.

(** In the second branch of [set] the number whose square root is taken is
    at least 1: the trace is not positive and the entry [i] of the diagonal
    is the largest. *)
Lemma set_second_branch (M : nat -> nat -> R) :
  ~ 0 < M 0%nat 0%nat + M 1%nat 1%nat + M 2%nat 2%nat ->
  let i := largest_diag (mfin M) in
  let j := nxt i in
  let k := nxt j in
  (i < 3)%nat
  /\ 1 <= M i i - (M j j + M k k) + 1
  /\ set (mfin M) = set_from_s (mfin M) i (Fin (sqrt (M i i - (M j j + M k k) + 1))).
Proof.
  intros Htr i j k.
  assert (Hi : (i < 3)%nat /\ 1 <= M i i - (M j j + M k k) + 1).
  { subst i j k.
    destruct (largest_diag_spec M) as [[Hp [Ha Hb]] | [[Hp [Ha Hb]] | [Hp [Ha Hb]]]];
      cbv zeta in Hp; rewrite Hp; unfold nxt; cbn [nth]; split; try lia; lra. }
  destruct Hi as [Hi Harg].
  split; [exact Hi | split; [exact Harg |]].
  unfold set. fold i j k.
  replace (mget (mfin M) 0 0 + mget (mfin M) 1 1 + mget (mfin M) 2 2)%fl
    with (Fin (M 0%nat 0%nat + M 1%nat 1%nat + M 2%nat 2%nat)) by reflexivity.
  unfold fgt. rewrite flt_false by exact Htr.
  replace (mget (mfin M) i i - (mget (mfin M) j j + mget (mfin M) k k) + Fin 1)%fl
    with (Fin (M i i - (M j j + M k k) + 1)) by reflexivity.
  rewrite fsqrt_Fin by lra. reflexivity.
Qed.

(** C9. The second branch of [set] never divides by zero.  From any finite
    matrix whose trace is not positive all four components come out finite;
    the code after the square root yields finite components for every
    finite [s], as the reciprocal [0.5 / s] is taken for [s <> 0] only; and
    for [s = 0] the four components are 0. *)
Theorem set_guards_reciprocal (M : nat -> nat -> R) :
  (~ 0 < M 0%nat 0%nat + M 1%nat 1%nat + M 2%nat 2%nat ->
   quat_finite (set (mfin M)))
  /\ (forall (i : nat) (s : R), (i < 3)%nat ->
        quat_finite (set_from_s (mfin M) i (Fin s))
        /\ exists s' : R,
            (s <> 0 -> s' = 0.5 / s) /\ (s = 0 -> s' = 0)
            /\ QW (set_from_s (mfin M) i (Fin s))
               = Fin ((M (nxt i) (nxt (nxt i)) - M (nxt (nxt i)) (nxt i)) * s'))
  /\ (forall i : nat, (i < 3)%nat ->
        set_from_s (mfin M) i (Fin 0) = qfin 0 0 0 0).
Proof.
  split; [| split].
  - intros Htr. destruct (set_second_branch M Htr) as (Hi & _ & Heq).
    rewrite Heq. apply set_from_s_finite. exact Hi.
  - intros i s Hi. split; [apply set_from_s_finite; exact Hi |].
    exists (if Req_dec_T s 0 then s else 0.5 / s).
    split; [| split].
    + intros Hs. destruct (Req_dec_T s 0); [contradiction | reflexivity].
    + intros Hs. destruct (Req_dec_T s 0); [exact Hs | contradiction].
    + rewrite set_from_s_Fin by exact Hi.
      destruct i as [| [| [| i]]]; [| | | lia]; reflexivity.
  - intros i Hi. apply set_from_s_zero. exact Hi.
Qed.

Lemma set_guards_reciprocal_witness : quat_finite (set (mfin half_turn_x)).
Proof.
  apply (set_guards_reciprocal half_turn_x). cbn. lra.
Defined.

(** [set] reads the upper left 3x3 block only. *)
Lemma set_ext (m m' : Matrix) :
  (forall r c : nat, (r < 3)%nat -> (c < 3)%nat -> mget m r c = mget m' r c) ->
  set m = set m'.
Proof.
  intros H.
  assert (Hld : largest_diag m = largest_diag m').
  { unfold largest_diag. cbv zeta.
    rewrite (H 1%nat 1%nat), (H 0%nat 0%nat), (H 2%nat 2%nat) by lia.
    destruct (fgt (mget m' 1 1) (mget m' 0 0)); rewrite ?H by lia; reflexivity. }
  assert (Hlt : (largest_diag m' < 3)%nat).
  { unfold largest_diag. cbv zeta.
    destruct (fgt (mget m' 1 1) (mget m' 0 0));
      destruct (fgt (mget m' 2 2) _); lia. }
  unfold set. rewrite Hld.
  destruct (largest_diag m') as [| [| [| i]]]; [| | | lia];
    unfold set_from_s, nxt; cbn [nth]; rewrite !H by lia; reflexivity.
Qed.

(** The entries of the matrix [get] writes, whatever the matrix held
    before. *)
Lemma get_qfin (x y z w : R) (m : Matrix) (r c : nat) :
  (r < 4)%nat -> (c < 4)%nat ->
  mget (get (qfin x y z w) m) r c = Fin (rotmat x y z w r c).
Proof.
  intros Hr Hc.
  destruct r as [| [| [| [| r]]]]; [| | | | lia];
    destruct c as [| [| [| [| c]]]]; try lia; reflexivity.
Qed.

Lemma set_get_rotmat (x y z w : R) (m : Matrix) :
  set (get (qfin x y z w) m) = set (mfin (rotmat x y z w)).
Proof.
  apply set_ext. intros r c Hr Hc. rewrite get_qfin by lia. reflexivity.
Qed.

(** The first branch of [set], on a finite matrix of positive trace. *)
Lemma set_pos_trace_Fin (M : nat -> nat -> R) :
  let tr := M 0%nat 0%nat + M 1%nat 1%nat + M 2%nat 2%nat in
  0 < tr ->
  set (mfin M)
  = qfin ((M 1%nat 2%nat - M 2%nat 1%nat) * (0.5 / sqrt (tr + 1)))
         ((M 2%nat 0%nat - M 0%nat 2%nat) * (0.5 / sqrt (tr + 1)))
         ((M 0%nat 1%nat - M 1%nat 0%nat) * (0.5 / sqrt (tr + 1)))
         (sqrt (tr + 1) / 2).
Proof.
  intros tr Htr. unfold set.
  replace (mget (mfin M) 0 0 + mget (mfin M) 1 1 + mget (mfin M) 2 2)%fl
    with (Fin tr) by reflexivity.
  unfold fgt. rewrite flt_true by exact Htr. fin_eval.
  rewrite fsqrt_Fin by lra.
  assert (Hs : 0 < sqrt (tr + 1)) by (apply sqrt_lt_R0; lra).
  rewrite !fdiv_Fin by lra. reflexivity.
Qed.

Lemma sqrt_double_sq (a u : R) : a = 2 * u * (2 * u) -> 0 < u -> sqrt a = 2 * u.
Proof. intros Ha Hu. rewrite Ha. apply sqrt_square. lra. Qed.

Lemma sqrt_double_sq_neg (a u : R) :
  a = 2 * u * (2 * u) -> u < 0 -> sqrt a = - (2 * u).
Proof.
  intros Ha Hu. rewrite Ha.
  replace (2 * u * (2 * u)) with (- (2 * u) * - (2 * u)) by ring.
  apply sqrt_square. lra.
Qed.

(** [set] after [get] yields the conjugate quaternion, or the opposite of
    the conjugate: the two functions index the matrix in transposed
    ways. *)
Lemma set_get_conjugate (x y z w : R) (m : Matrix) :
  unit4 x y z w ->
  set (get (qfin x y z w) m) = qconj x y z w
  \/ set (get (qfin x y z w) m) = qfin x y z (- w).
Proof.
  intros Hu. unfold unit4 in Hu. rewrite set_get_rotmat.
  set (M := rotmat x y z w).
  destruct (Rlt_dec 0 (M 0%nat 0%nat + M 1%nat 1%nat + M 2%nat 2%nat)) as [Htr | Htr].
  - rewrite set_pos_trace_Fin by exact Htr.
    assert (Harg : M 0%nat 0%nat + M 1%nat 1%nat + M 2%nat 2%nat + 1 = 2 * w * (2 * w))
      by (unfold M; cbn [rotmat]; nra).
    assert (Hw : w <> 0) by (intros H0; subst w; lra).
    destruct (Rlt_dec 0 w) as [Hpos | Hneg].
    + left. rewrite (sqrt_double_sq _ w Harg Hpos). unfold M. cbn [rotmat].
      quat_field Hw.
    + right. rewrite (sqrt_double_sq_neg _ w Harg) by lra. unfold M. cbn [rotmat].
      quat_field Hw.
  - destruct (set_second_branch M Htr) as (Hi & Harg & Heq). cbv zeta in *.
    rewrite Heq, set_from_s_Fin by exact Hi. clear Heq.
    destruct (largest_diag (mfin M)) as [| [| [| i]]]; [| | | lia];
      unfold nxt, aset in *; cbn [nth Nat.eqb] in *.
    + assert (Hsq : M 0%nat 0%nat - (M 1%nat 1%nat + M 2%nat 2%nat) + 1 = 2 * x * (2 * x))
        by (unfold M; cbn [rotmat]; ring).
      assert (Hx : x <> 0) by (intros H0; subst x; lra).
      destruct (Rlt_dec 0 x) as [Hpos | Hneg].
      * right. rewrite (sqrt_double_sq _ x Hsq Hpos).
        destruct (Req_dec_T (2 * x) 0) as [H0 | _]; [lra |].
        unfold M. cbn [rotmat]. quat_field Hx.
      * left. rewrite (sqrt_double_sq_neg _ x Hsq) by lra.
        destruct (Req_dec_T (- (2 * x)) 0) as [H0 | _]; [lra |].
        unfold M. cbn [rotmat]. quat_field Hx.
    + assert (Hsq : M 1%nat 1%nat - (M 2%nat 2%nat + M 0%nat 0%nat) + 1 = 2 * y * (2 * y))
        by (unfold M; cbn [rotmat]; ring).
      assert (Hy : y <> 0) by (intros H0; subst y; lra).
      destruct (Rlt_dec 0 y) as [Hpos | Hneg].
      * right. rewrite (sqrt_double_sq _ y Hsq Hpos).
        destruct (Req_dec_T (2 * y) 0) as [H0 | _]; [lra |].
        unfold M. cbn [rotmat]. quat_field Hy.
      * left. rewrite (sqrt_double_sq_neg _ y Hsq) by lra.
        destruct (Req_dec_T (- (2 * y)) 0) as [H0 | _]; [lra |].
        unfold M. cbn [rotmat]. quat_field Hy.
    + assert (Hsq : M 2%nat 2%nat - (M 0%nat 0%nat + M 1%nat 1%nat) + 1 = 2 * z * (2 * z))
        by (unfold M; cbn [rotmat]; ring).
      assert (Hz : z <> 0) by (intros H0; subst z; lra).
      destruct (Rlt_dec 0 z) as [Hpos | Hneg].
      * right. rewrite (sqrt_double_sq _ z Hsq Hpos).
        destruct (Req_dec_T (2 * z) 0) as [H0 | _]; [lra |].
        unfold M. cbn [rotmat]. quat_field Hz.
      * left. rewrite (sqrt_double_sq_neg _ z Hsq) by lra.
        destruct (Req_dec_T (- (2 * z)) 0) as [H0 | _]; [lra |].
        unfold M. cbn [rotmat]. quat_field Hz.
Qed.

(** C3. The round trip fails on the unit quaternion [(3/5, 0, 0, 4/5)]:
    [set] after [get] yields [(-3/5, 0, 0, 4/5)], its conjugate, which is
    neither the quaternion nor its opposite. *)
Theorem set_get_conjugates_unit_quaternion (m : Matrix) :
  unit4 (3 / 5) 0 0 (4 / 5)
  /\ set (get (qfin (3 / 5) 0 0 (4 / 5)) m) = qfin (- (3 / 5)) 0 0 (4 / 5)
  /\ ~ matrix_roundtrip (3 / 5) 0 0 (4 / 5) m.
Proof.
  assert (Hval : set (get (qfin (3 / 5) 0 0 (4 / 5)) m) = qfin (- (3 / 5)) 0 0 (4 / 5)).
  { rewrite set_get_rotmat, set_pos_trace_Fin by (cbn [rotmat]; lra).
    cbn [rotmat].
    rewrite (sqrt_double_sq _ (4 / 5)) by lra.
    unfold qfin. f_equal; f_equal; lra. }
  split; [unfold unit4; lra | split; [exact Hval |]].
  unfold matrix_roundtrip. rewrite Hval. unfold qopp, qfin.
  intros [H | H]; injection H; intros; lra.
Qed.

(** ** Concrete scenarios *)

(** A quarter turn about the third axis: the sign of the third component
    comes from the negation of the angle. *)
Example makeRot_quarter_turn_z :
  makeRot (Fin (PI / 2)) (Fin 0) (Fin 0) (Fin 1)
  = qfin 0 0 (- sin (PI / 4)) (cos (PI / 4)).
Proof.
  rewrite makeRot_Fin by (right; right; lra).
  replace (0.5 * - (PI / 2)) with (- (PI / 4)) by lra.
  rewrite sin_neg, cos_neg.
  replace (0 * 0 + 0 * 0 + 1 * 1) with 1 by ring. rewrite sqrt_1.
  unfold qfin. f_equal; f_equal; field.
Qed.

(** The matrix of the identity quaternion is the identity matrix. *)
Example get_identity (m : Matrix) (r c : nat) :
  (r < 4)%nat -> (c < 4)%nat ->
  mget (get (qfin 0 0 0 1) m) r c = Fin (if Nat.eqb r c then 1 else 0).
Proof.
  intros Hr Hc. rewrite get_qfin by assumption. f_equal.
  destruct r as [| [| [| [| r]]]]; [| | | | lia];
    destruct c as [| [| [| [| c]]]]; try lia; cbn; ring.
Qed.

(** The half turn about the first axis, as a matrix, is the quaternion
    [(1,0,0,0)]. *)
Example set_half_turn_x : set (mfin half_turn_x) = qfin 1 0 0 0.
Proof.
  assert (Htr : ~ 0 < half_turn_x 0 0 + half_turn_x 1 1 + half_turn_x 2 2)
    by (cbn; lra).
  destruct (set_second_branch half_turn_x Htr) as (Hi & _ & Heq).
  cbv zeta in *. rewrite Heq, set_from_s_Fin by exact Hi. clear Heq.
  destruct (largest_diag_spec half_turn_x) as [[Hp _] | [[_ [H _]] | [_ [H _]]]];
    cbv zeta in *; [| cbn in H; lra | cbn in H; lra].
  rewrite Hp. unfold nxt, aset. cbn [nth Nat.eqb half_turn_x].
  rewrite (sqrt_double_sq _ 1) by lra.
  destruct (Req_dec_T (2 * 1) 0) as [H0 | _]; [lra |].
  unfold qfin. f_equal; f_equal; lra.
Qed.

(** Opposite vectors along the first axis: a half turn about the axis
    [(0,-1,1)]. *)
Example makeRot_fromto_opposite :
  makeRot_fromto (mkVec3 (Fin 1) (Fin 0) (Fin 0)) (mkVec3 (Fin (-1)) (Fin 0) (Fin 0))
  = makeRot (Fin PI) (Fin 0) (Fin (-1)) (Fin 1).
Proof.
  rewrite makeRot_fromto_Fin by (left; lra).
  replace (1 * 1 + 0 * 0 + 0 * 0) with 1 by ring.
  replace (-1 * -1 + 0 * 0 + 0 * 0) with 1 by ring.
  rewrite sqrt_1.
  replace ((1 * -1 + 0 * 0 + 0 * 0) / (1 * 1) - 1) with (-2) by field.
  replace ((1 * -1 + 0 * 0 + 0 * 0) / (1 * 1) + 1) with 0 by field.
  rewrite Rabs_R0, Rabs_left by lra.
  destruct (Rlt_dec (- -2) epsilon) as [H | _]; [unfold epsilon in H; lra |].
  destruct (Rlt_dec 0 epsilon) as [_ | H]; [| unfold epsilon in H; lra].
  rewrite opposite_axis_Fin.
  destruct (biggest_posn_spec 1 0 0) as [[Hp _] | [[_ [H _]] | [_ [H _]]]];
    cbv zeta in *;
    [| rewrite Rabs_R0, Rabs_R1 in H; lra | rewrite Rabs_R0, Rabs_R1 in H; lra].
  rewrite Hp. unfold makeRot_axis. fin_eval.
  f_equal; f_equal; ring.
Qed.

(** A zero vector makes the cosine a NaN, which no comparison accepts: the
    last regime is taken. *)
Lemma makeRot_fromto_zero (x y z : R) :
  makeRot_fromto (mkVec3 (Fin 0) (Fin 0) (Fin 0)) (mkVec3 (Fin x) (Fin y) (Fin z))
  = makeRot_axis NonFin
      (cross (mkVec3 (Fin 0) (Fin 0) (Fin 0)) (mkVec3 (Fin x) (Fin y) (Fin z))).
Proof.
  unfold makeRot_fromto. fin_eval.
  replace (0 * 0 + 0 * 0 + 0 * 0) with 0 by ring.
  assert (Hx := Rle_0_sqr x). assert (Hy := Rle_0_sqr y). assert (Hz := Rle_0_sqr z).
  unfold Rsqr in *.
  rewrite !fsqrt_Fin by lra. rewrite sqrt_0. fin_eval.
  replace (0 * sqrt (x * x + y * y + z * z)) with 0 by ring.
  rewrite fdiv_zero. reflexivity.
Qed.

(** * Further properties of the conversions *)

(** ** [makeRot]: symmetries *)

Lemma norm3_opp (x y z : R) :
  sqrt (- x * - x + - y * - y + - z * - z) = sqrt (x * x + y * y + z * z).
Proof. f_equal. ring. Qed.

(** X1. With a non-zero axis, negating the angle and negating the axis have
    the same effect: each yields the conjugate quaternion. *)
Theorem makeRot_negation_conjugates (a x y z : R) :
  x <> 0 \/ y <> 0 \/ z <> 0 ->
  makeRot (Fin (- a)) (Fin x) (Fin y) (Fin z)
  = quat_conj (makeRot (Fin a) (Fin x) (Fin y) (Fin z))
  /\ makeRot (Fin a) (Fin (- x)) (Fin (- y)) (Fin (- z))
     = quat_conj (makeRot (Fin a) (Fin x) (Fin y) (Fin z)).
Proof.
  intros Hax.
  assert (Hn := norm3_pos x y z Hax).
  assert (Hax' : - x <> 0 \/ - y <> 0 \/ - z <> 0)
    by (destruct Hax as [H | [H | H]]; [left | right; left | right; right]; lra).
  rewrite (makeRot_Fin (- a)), (makeRot_Fin a (- x)), (makeRot_Fin a x)
    by assumption.
  rewrite norm3_opp. unfold quat_conj. fin_eval.
  replace (0.5 * - - a) with (- (0.5 * - a)) by lra.
  rewrite sin_neg, cos_neg.
  split; f_equal; f_equal; field; lra.
Qed.

Lemma makeRot_negation_conjugates_witness :
  makeRot (Fin (- 1)) (Fin 0) (Fin 0) (Fin 2)
  = quat_conj (makeRot (Fin 1) (Fin 0) (Fin 0) (Fin 2)).
Proof.
  apply (makeRot_negation_conjugates 1 0 0 2). right; right. lra.
Defined.

(** X2. A full turn more gives the opposite quaternion, two full turns
    more the same quaternion: the angle counts modulo [4 * PI]. *)
Theorem makeRot_full_turn (a x y z : R) :
  x <> 0 \/ y <> 0 \/ z <> 0 ->
  makeRot (Fin (a + 2 * PI)) (Fin x) (Fin y) (Fin z)
  = quat_opp (makeRot (Fin a) (Fin x) (Fin y) (Fin z))
  /\ makeRot (Fin (a + 4 * PI)) (Fin x) (Fin y) (Fin z)
     = makeRot (Fin a) (Fin x) (Fin y) (Fin z).
Proof.
  intros Hax.
  assert (Hn := norm3_pos x y z Hax).
  rewrite !makeRot_Fin by assumption.
  unfold quat_opp. fin_eval.
  replace (0.5 * - (a + 2 * PI)) with (0.5 * - a - PI) by lra.
  replace (0.5 * - (a + 4 * PI)) with (0.5 * - a - 2 * PI) by lra.
  rewrite sin_minus, cos_minus, sin_PI, cos_PI.
  rewrite (sin_minus _ (2 * PI)), (cos_minus _ (2 * PI)), sin_2PI, cos_2PI.
  split; f_equal; f_equal; field; lra.
Qed.

Lemma makeRot_full_turn_witness :
  makeRot (Fin (1 + 4 * PI)) (Fin 0) (Fin 3) (Fin 0)
  = makeRot (Fin 1) (Fin 0) (Fin 3) (Fin 0).
Proof.
  apply (makeRot_full_turn 1 0 3 0). right; left. lra.
Defined.

(** ** [getRot]: the axis and the angle returned *)

Lemma unit_axis_sumsq (x y z : R) :
  x <> 0 \/ y <> 0 \/ z <> 0 ->
  let s := sqrt (x * x + y * y + z * z) in
  x / s * (x / s) + y / s * (y / s) + z / s * (z / s) = 1.
Proof.
  intros Hax s.
  assert (Hs : 0 < s) by (apply norm3_pos, Hax).
  assert (Hss : s * s = x * x + y * y + z * z) by apply norm3_sqr.
  replace (x / s * (x / s) + y / s * (y / s) + z / s * (z / s))
    with ((x * x + y * y + z * z) / (s * s)) by (field; lra).
  rewrite <- Hss. field. lra.
Qed.

(** In exact arithmetic.  For a finite quaternion, unit or not, whose vector part is not
    zero, the axis [getRot] returns has length 1. *)
Lemma getRot_axis_unit_exact (x y z w : R) :
  x <> 0 \/ y <> 0 \/ z <> 0 ->
  length3 (snd (getRot (qfin x y z w))) = Fin 1.
Proof.
  intros Hax. unfold qfin.
  rewrite getRot_Fin by (apply Rgt_not_eq, norm3_pos, Hax).
  fin_eval. rewrite (unit_axis_sumsq x y z Hax).
  rewrite fsqrt_Fin by lra. now rewrite sqrt_1.
Qed.

(** X4. A quaternion whose vector part is zero has no axis: the three
    components returned are quotients of 0 by 0.  The angle is finite all
    the same: 0 for a scalar part that is not negative, [2 * PI] for a
    negative one. *)
Theorem getRot_zero_vector_part (w : R) :
  getRot (qfin 0 0 0 w)
  = (Fin (if Rlt_dec w 0 then 2 * PI else 0), mkVec3 NonFin NonFin NonFin).
Proof.
  unfold getRot, qfin. fin_eval.
  replace (0 * 0 + 0 * 0 + 0 * 0) with 0 by ring.
  rewrite fsqrt_Fin by lra. rewrite sqrt_0. fin_eval.
  rewrite fdiv_zero. f_equal. f_equal.
  unfold atan2.
  destruct (Rlt_dec 0 w) as [Hpos | Hnpos].
  - destruct (Rlt_dec w 0) as [Hneg | _]; [lra |].
    replace (0 / w) with 0 by (field; lra). rewrite atan_0. ring.
  - destruct (Rlt_dec w 0) as [Hneg | _].
    + destruct (Rle_dec 0 0) as [_ | H]; [| lra].
      replace (0 / w) with 0 by (field; lra). rewrite atan_0. ring.
    + destruct (Rlt_dec 0 0) as [H | _]; [lra | ring].
Qed.

(** [atan2] depends on the direction of the point only. *)
Lemma atan2_scale (c y x : R) : 0 < c -> atan2 (c * y) (c * x) = atan2 y x.
Proof.
  intros Hc. unfold atan2.
  destruct (Rlt_dec 0 x) as [Hx | Hx].
  - destruct (Rlt_dec 0 (c * x)) as [_ | H]; [| nra].
    f_equal. field. lra.
  - destruct (Rlt_dec 0 (c * x)) as [H | _]; [nra |].
    destruct (Rlt_dec x 0) as [Hx' | Hx'].
    + destruct (Rlt_dec (c * x) 0) as [_ | H]; [| nra].
      replace (c * y / (c * x)) with (y / x) by (field; lra).
      destruct (Rle_dec 0 y) as [Hy | Hy];
        destruct (Rle_dec 0 (c * y)) as [Hy' | Hy']; try reflexivity; nra.
    + destruct (Rlt_dec (c * x) 0) as [H | _]; [nra |].
      destruct (Rlt_dec 0 y) as [Hy | Hy].
      * destruct (Rlt_dec 0 (c * y)) as [_ | H]; [reflexivity | nra].
      * destruct (Rlt_dec 0 (c * y)) as [H | _]; [nra |].
        destruct (Rlt_dec y 0) as [Hy' | Hy'].
        -- destruct (Rlt_dec (c * y) 0) as [_ | H]; [reflexivity | nra].
        -- destruct (Rlt_dec (c * y) 0) as [H | _]; [nra | reflexivity].
Qed.

(** In exact arithmetic.  [getRot] does not need a normalised quaternion: scaling the four
    components by a positive factor changes neither the angle nor the
    axis. *)
Lemma getRot_scale_invariant_exact (c x y z w : R) :
  0 < c ->
  getRot (qfin (c * x) (c * y) (c * z) (c * w)) = getRot (qfin x y z w).
Proof.
  intros Hc. unfold getRot, qfin. fin_eval.
  assert (Hx := Rle_0_sqr x). assert (Hy := Rle_0_sqr y). assert (Hz := Rle_0_sqr z).
  assert (Hcx := Rle_0_sqr (c * x)). assert (Hcy := Rle_0_sqr (c * y)).
  assert (Hcz := Rle_0_sqr (c * z)). unfold Rsqr in *.
  rewrite !fsqrt_Fin by lra. rewrite norm3_scale by exact Hc. fin_eval.
  rewrite atan2_scale by exact Hc.
  set (s := sqrt (x * x + y * y + z * z)).
  destruct (Req_dec_T s 0) as [Hs | Hs].
  - rewrite Hs, Rmult_0_r, !fdiv_zero. reflexivity.
  - assert (Hcs : c * s <> 0) by (apply Rmult_integral_contrapositive_currified; lra).
    rewrite !fdiv_Fin by assumption.
    f_equal. f_equal; f_equal; field; lra.
Qed.

Lemma atan2_opp_second (s w : R) : 0 < s -> atan2 s (- w) = PI - atan2 s w.
Proof.
  intros Hs. unfold atan2.
  destruct (Rle_dec 0 s) as [_ | H]; [| lra].
  destruct (Rlt_dec 0 s) as [_ | H]; [| lra].
  destruct (Rlt_dec 0 w) as [Hw | Hw].
  - destruct (Rlt_dec 0 (- w)) as [H | _]; [lra |].
    destruct (Rlt_dec (- w) 0) as [_ | H]; [| lra].
    replace (s / - w) with (- (s / w)) by (field; lra).
    rewrite atan_opp. ring.
  - destruct (Rlt_dec w 0) as [Hw' | Hw'].
    + destruct (Rlt_dec 0 (- w)) as [_ | H]; [| lra].
      replace (s / - w) with (- (s / w)) by (field; lra).
      rewrite atan_opp. ring.
    + destruct (Rlt_dec 0 (- w)) as [H | _]; [lra |].
      destruct (Rlt_dec (- w) 0) as [H | _]; [lra | field].
Qed.

(** X6. The opposite quaternion is read as the same rotation written the
    other way round: the opposite axis and the angle [2 * PI - angle]. *)
Theorem getRot_opposite (x y z w : R) :
  x <> 0 \/ y <> 0 \/ z <> 0 ->
  let s := sqrt (x * x + y * y + z * z) in
  getRot (qfin x y z w)
  = (Fin (2 * atan2 s w), mkVec3 (Fin (x / s)) (Fin (y / s)) (Fin (z / s)))
  /\ getRot (quat_opp (qfin x y z w))
     = (Fin (2 * PI - 2 * atan2 s w),
        mkVec3 (Fin (- (x / s))) (Fin (- (y / s))) (Fin (- (z / s)))).
Proof.
  intros Hax s.
  assert (Hs : 0 < s) by (apply norm3_pos, Hax).
  unfold quat_opp, qfin. fin_eval.
  rewrite !getRot_Fin by (rewrite ?norm3_opp; fold s; lra).
  rewrite norm3_opp. fold s.
  split; [reflexivity |].
  rewrite atan2_opp_second by exact Hs.
  f_equal; [f_equal; ring | f_equal; f_equal; field; lra].
Qed.

Lemma getRot_opposite_witness :
  getRot (quat_opp (qfin 1 0 0 1))
  = (Fin (2 * PI - 2 * atan2 (sqrt (1 * 1 + 0 * 0 + 0 * 0)) 1),
     mkVec3 (Fin (- (1 / sqrt (1 * 1 + 0 * 0 + 0 * 0))))
            (Fin (- (0 / sqrt (1 * 1 + 0 * 0 + 0 * 0))))
            (Fin (- (0 / sqrt (1 * 1 + 0 * 0 + 0 * 0))))).
Proof.
  apply (getRot_opposite 1 0 0 1). left. lra.
Defined.

(** X7. [makeRot] does not undo [getRot]: as it negates the angle it is
    given, the angle and axis read from a unit quaternion are made into the
    conjugate quaternion. *)
Theorem makeRot_getRot_conjugate (x y z w : R) :
  unit4 x y z w ->
  x <> 0 \/ y <> 0 \/ z <> 0 ->
  makeRot_axis (fst (getRot (qfin x y z w))) (snd (getRot (qfin x y z w)))
  = quat_conj (qfin x y z w).
Proof.
  intros Hu Hax. unfold unit4 in Hu.
  assert (Hs := norm3_pos x y z Hax). assert (Hss := norm3_sqr x y z).
  assert (Hone := unit_axis_sumsq x y z Hax). cbv zeta in Hone.
  unfold qfin. rewrite getRot_Fin by lra.
  set (s := sqrt (x * x + y * y + z * z)) in *.
  unfold makeRot_axis, quat_conj. fin_eval.
  assert (Hax' : x / s <> 0 \/ y / s <> 0 \/ z / s <> 0).
  { assert (Hi : 0 < / s) by now apply Rinv_0_lt_compat.
    destruct Hax as [H | [H | H]]; [left | right; left | right; right];
      unfold Rdiv; apply Rmult_integral_contrapositive_currified; lra. }
  rewrite makeRot_Fin by exact Hax'.
  rewrite Hone, sqrt_1.
  replace (0.5 * - (2 * atan2 s w)) with (- atan2 s w) by lra.
  rewrite sin_neg, cos_neg.
  destruct (atan2_unit_circle s w) as [Hc Hsn]; [lra |].
  rewrite Hc, Hsn.
  f_equal; f_equal; field; lra.
Qed.

Lemma makeRot_getRot_conjugate_witness :
  makeRot_axis (fst (getRot (qfin (3 / 5) 0 0 (4 / 5))))
               (snd (getRot (qfin (3 / 5) 0 0 (4 / 5))))
  = quat_conj (qfin (3 / 5) 0 0 (4 / 5)).
Proof.
  apply (makeRot_getRot_conjugate (3 / 5) 0 0 (4 / 5)).
  - unfold unit4. lra.
  - left. lra.
Defined.

(** ** [get]: the matrix written *)

Lemma row_dot_get (x y z w : R) (m : Matrix) (i j : nat) :
  (i < 3)%nat -> (j < 3)%nat ->
  row_dot (get (qfin x y z w) m) i j
  = Fin (rotmat x y z w i 0 * rotmat x y z w j 0
         + rotmat x y z w i 1 * rotmat x y z w j 1
         + rotmat x y z w i 2 * rotmat x y z w j 2).
Proof.
  intros Hi Hj. unfold row_dot. rewrite !get_qfin by lia. reflexivity.
Qed.

Lemma col_dot_get (x y z w : R) (m : Matrix) (i j : nat) :
  (i < 3)%nat -> (j < 3)%nat ->
  col_dot (get (qfin x y z w) m) i j
  = Fin (rotmat x y z w 0 i * rotmat x y z w 0 j
         + rotmat x y z w 1 i * rotmat x y z w 1 j
         + rotmat x y z w 2 i * rotmat x y z w 2 j).
Proof.
  intros Hi Hj. unfold col_dot. rewrite !get_qfin by lia. reflexivity.
Qed.

(** X8. The matrix [get] writes for a unit quaternion is a rotation
    matrix without translation, whatever the matrix held before: the rows
    of its 3x3 block are orthonormal, so are its columns, and the fourth row
    and the fourth column are [(0,0,0,1)]. *)
Theorem get_orthonormal (x y z w : R) (m : Matrix) :
  unit4 x y z w ->
  (forall i j : nat, (i < 3)%nat -> (j < 3)%nat ->
     row_dot (get (qfin x y z w) m) i j = Fin (if Nat.eqb i j then 1 else 0)
     /\ col_dot (get (qfin x y z w) m) i j = Fin (if Nat.eqb i j then 1 else 0))
  /\ (forall k : nat, (k < 4)%nat ->
        mget (get (qfin x y z w) m) 3 k = Fin (if Nat.eqb k 3 then 1 else 0)
        /\ mget (get (qfin x y z w) m) k 3 = Fin (if Nat.eqb k 3 then 1 else 0)).
Proof.
  intros Hu. unfold unit4 in Hu. split.
  - intros i j Hi Hj.
    rewrite row_dot_get, col_dot_get by assumption.
    destruct i as [| [| [| i]]]; [| | | lia];
      destruct j as [| [| [| j]]]; try lia;
      cbn [rotmat Nat.eqb]; clear Hi Hj m; split; f_equal; nsatz.
  - intros k Hk. rewrite !get_qfin by lia.
    destruct k as [| [| [| [| k]]]]; [| | | | lia]; split; reflexivity.
Qed.

Lemma get_orthonormal_witness :
  row_dot (get (qfin (3 / 5) 0 0 (4 / 5)) (mfin half_turn_x)) 1 1 = Fin 1.
Proof.
  assert (Hu : unit4 (3 / 5) 0 0 (4 / 5)) by (unfold unit4; lra).
  destruct (get_orthonormal (3 / 5) 0 0 (4 / 5) (mfin half_turn_x) Hu) as [H _].
  destruct (H 1%nat 1%nat) as [Hr _]; [lia | lia |]. exact Hr.
Defined.

(** X9. A quaternion and its opposite have the same matrix, and the
    matrix of the conjugate is the transposed matrix; no unit norm is
    needed. *)
Theorem get_opposite_conjugate (x y z w : R) (m m' : Matrix) (r c : nat) :
  (r < 4)%nat -> (c < 4)%nat ->
  mget (get (quat_opp (qfin x y z w)) m) r c = mget (get (qfin x y z w) m') r c
  /\ mget (get (quat_conj (qfin x y z w)) m) r c
     = mget (transpose (get (qfin x y z w) m')) r c.
Proof.
  intros Hr Hc.
  change (quat_opp (qfin x y z w)) with (qfin (- x) (- y) (- z) (- w)).
  change (quat_conj (qfin x y z w)) with (qfin (- x) (- y) (- z) w).
  change (mget (transpose (get (qfin x y z w) m')) r c)
    with (mget (get (qfin x y z w) m') c r).
  rewrite !get_qfin by lia.
  destruct r as [| [| [| [| r]]]]; [| | | | lia];
    destruct c as [| [| [| [| c]]]]; try lia;
    cbn [rotmat]; split; f_equal; ring.
Qed.

Lemma get_opposite_conjugate_witness :
  mget (get (quat_conj (qfin 1 2 3 4)) (mfin half_turn_x)) 0 1
  = mget (transpose (get (qfin 1 2 3 4) (mfin half_turn_x))) 0 1.
Proof.
  destruct (get_opposite_conjugate 1 2 3 4 (mfin half_turn_x) (mfin half_turn_x)
              0%nat 1%nat) as [_ H]; [lia | lia |].
  exact H.
Defined.

(** ** [set]: finiteness, and the composition with [get] *)

(** In exact arithmetic.  [set] yields four finite components from every finite matrix: in
    the first branch the square root is taken of a number above 1 and is
    divided by, in the second the division is guarded. *)
Lemma set_finite_exact (M : nat -> nat -> R) : quat_finite (set (mfin M)).
Proof.
  destruct (Rlt_dec 0 (M 0%nat 0%nat + M 1%nat 1%nat + M 2%nat 2%nat)) as [Htr | Htr].
  - rewrite set_pos_trace_Fin by exact Htr. unfold qfin, quat_finite. cbn.
    repeat split.
  - destruct (set_second_branch M Htr) as (Hi & _ & Heq).
    rewrite Heq. apply set_from_s_finite. exact Hi.
Qed.

(** X11. For a unit quaternion [q], [set] after [get] yields the conjugate
    of [q] or the opposite of the conjugate; the matrix of what [set]
    yields is therefore the transpose of the matrix it was given. *)
Theorem set_get_transposes (x y z w : R) (m m' : Matrix) :
  unit4 x y z w ->
  (set (get (qfin x y z w) m) = quat_conj (qfin x y z w)
   \/ set (get (qfin x y z w) m) = quat_opp (quat_conj (qfin x y z w)))
  /\ forall r c : nat, (r < 4)%nat -> (c < 4)%nat ->
       mget (get (set (get (qfin x y z w) m)) m') r c
       = mget (transpose (get (qfin x y z w) m)) r c.
Proof.
  intros Hu.
  assert (Hcases := set_get_conjugate x y z w m Hu).
  assert (Hgc : forall r c : nat, (r < 4)%nat -> (c < 4)%nat ->
            rotmat (- x) (- y) (- z) w r c = rotmat x y z w c r).
  { intros r c Hr Hc.
    destruct r as [| [| [| [| r]]]]; [| | | | lia];
      destruct c as [| [| [| [| c]]]]; try lia; cbn [rotmat]; ring. }
  assert (Hgo : forall r c : nat, (r < 4)%nat -> (c < 4)%nat ->
            rotmat x y z (- w) r c = rotmat x y z w c r).
  { intros r c Hr Hc.
    destruct r as [| [| [| [| r]]]]; [| | | | lia];
      destruct c as [| [| [| [| c]]]]; try lia; cbn [rotmat]; ring. }
  split.
  - destruct Hcases as [H | H]; [left | right]; rewrite H.
    + reflexivity.
    + unfold quat_opp, quat_conj, qfin. fin_eval.
      f_equal; f_equal; ring.
  - intros r c Hr Hc.
    change (mget (transpose (get (qfin x y z w) m)) r c)
      with (mget (get (qfin x y z w) m) c r).
    rewrite (get_qfin x y z w m c r) by lia.
    destruct Hcases as [H | H]; rewrite H; unfold qconj;
      rewrite get_qfin by lia; f_equal; [apply Hgc | apply Hgo]; assumption.
Qed.

Lemma set_get_transposes_witness :
  set (get (qfin (3 / 5) 0 0 (4 / 5)) (mfin half_turn_x))
  = quat_conj (qfin (3 / 5) 0 0 (4 / 5))
  \/ set (get (qfin (3 / 5) 0 0 (4 / 5)) (mfin half_turn_x))
     = quat_opp (quat_conj (qfin (3 / 5) 0 0 (4 / 5))).
Proof.
  assert (Hu : unit4 (3 / 5) 0 0 (4 / 5)) by (unfold unit4; lra).
  destruct (set_get_transposes (3 / 5) 0 0 (4 / 5)
              (mfin half_turn_x) (mfin half_turn_x) Hu) as [H _].
  exact H.
Defined.

(** X12. [set] inverts the transpose of [get]: from the transposed matrix
    of a unit quaternion it yields the quaternion or its opposite. *)
Theorem set_transpose_get (x y z w : R) (m : Matrix) :
  unit4 x y z w ->
  set (transpose (get (qfin x y z w) m)) = qfin x y z w
  \/ set (transpose (get (qfin x y z w) m)) = quat_opp (qfin x y z w).
Proof.
  intros Hu.
  assert (Hu' : unit4 (- x) (- y) (- z) w) by (unfold unit4 in *; nra).
  assert (Heq : set (transpose (get (qfin x y z w) m))
                = set (get (qfin (- x) (- y) (- z) w) m)).
  { apply set_ext. intros r c Hr Hc.
    change (mget (transpose (get (qfin x y z w) m)) r c)
      with (mget (get (qfin x y z w) m) c r).
    rewrite !get_qfin by lia. f_equal.
    destruct r as [| [| [| r]]]; [| | | lia];
      destruct c as [| [| [| c]]]; try lia; cbn [rotmat]; ring. }
  rewrite Heq.
  destruct (set_get_conjugate (- x) (- y) (- z) w m Hu') as [H | H]; rewrite H.
  - left. unfold qconj, qfin. f_equal; f_equal; ring.
  - right. unfold quat_opp, qfin. fin_eval. reflexivity.
Qed.

Lemma set_transpose_get_witness :
  set (transpose (get (qfin (3 / 5) 0 0 (4 / 5)) (mfin half_turn_x)))
  = qfin (3 / 5) 0 0 (4 / 5)
  \/ set (transpose (get (qfin (3 / 5) 0 0 (4 / 5)) (mfin half_turn_x)))
     = quat_opp (qfin (3 / 5) 0 0 (4 / 5)).
Proof.
  assert (Hu : unit4 (3 / 5) 0 0 (4 / 5)) by (unfold unit4; lra).
  exact (set_transpose_get (3 / 5) 0 0 (4 / 5) (mfin half_turn_x) Hu).
Defined.

(** ** [slerp]: symmetry, norm, angle *)

(** Below -1 the cosine gives no finite weights: [acos] is a NaN. *)
Lemma slerp_nonfinite (t fx fy fz fw tx ty tz tw : R) :
  fx * tx + fy * ty + fz * tz + fw * tw < -1 ->
  slerp (Fin t) (qfin fx fy fz fw) (qfin tx ty tz tw)
  = mkQuat NonFin NonFin NonFin NonFin.
Proof.
  intros Hlt.
  unfold slerp, qfin. fin_eval.
  unfold fgt. rewrite flt_true by (unfold epsilon; lra).
  rewrite facos_below by exact Hlt. reflexivity.
Qed.

(** The cases of [slerp] on finite arguments. *)
Lemma slerp_cases (c : R) :
  (~ epsilon < 1 - c) \/ (epsilon < 1 - c /\ -1 < c) \/ c = -1 \/ c < -1.
Proof.
  destruct (Rlt_dec epsilon (1 - c)) as [H | H]; [| now left].
  destruct (Rlt_dec (-1) c) as [H' | H']; [right; left; now split |].
  destruct (Req_dec_T c (-1)) as [E | E]; [right; right; now left |].
  right; right; right. lra.
Qed.

(** X13. Interpolating from [a] to [b] at [t] is interpolating from [b] to
    [a] at [1 - t], on all finite arguments. *)
Theorem slerp_symmetric (t ax ay az aw bx by_ bz bw : R) :
  slerp (Fin t) (qfin ax ay az aw) (qfin bx by_ bz bw)
  = slerp (Fin (1 - t)) (qfin bx by_ bz bw) (qfin ax ay az aw).
Proof.
  assert (Hc : bx * ax + by_ * ay + bz * az + bw * aw
               = ax * bx + ay * by_ + az * bz + aw * bw) by ring.
  destruct (slerp_cases (ax * bx + ay * by_ + az * bz + aw * bw))
    as [Hlin | [[Hsph Hlo] | [Hanti | Hbelow]]].
  - rewrite slerp_linear by exact Hlin.
    rewrite slerp_linear by (rewrite Hc; exact Hlin).
    unfold blend, qfin. f_equal; f_equal; ring.
  - rewrite slerp_spherical by assumption.
    rewrite slerp_spherical by (rewrite Hc; assumption).
    rewrite Hc.
    replace (1 - (1 - t)) with t by ring.
    unfold blend, qfin. f_equal; f_equal; ring.
  - rewrite slerp_antipodal by exact Hanti.
    rewrite slerp_antipodal by (rewrite Hc; exact Hanti).
    replace (1 - (1 - t)) with t by ring.
    unfold blend, qfin. f_equal; f_equal; ring.
  - rewrite slerp_nonfinite by exact Hbelow.
    rewrite slerp_nonfinite by (rewrite Hc; exact Hbelow).
    reflexivity.
Qed.

(** The weights of the spherical case, for [omega] split in two parts. *)
Lemma spherical_weights (A B c : R) :
  sin (A + B) <> 0 -> c = cos (A + B) ->
  let sf := sin A / sin (A + B) in
  let st := sin B / sin (A + B) in
  sf * sf + st * st + 2 * sf * st * c = 1
  /\ sf + st * c = cos B
  /\ sf * c + st = cos A.
Proof.
  intros Hs Hc sf st. subst sf st c.
  assert (HA := sin2_cos2 A). assert (HB := sin2_cos2 B). unfold Rsqr in *.
  assert (Hsin := sin_plus A B). assert (Hcos := cos_plus A B).
  set (s := sin (A + B)) in *. set (c := cos (A + B)) in *.
  set (sA := sin A) in *. set (cA := cos A) in *.
  set (sB := sin B) in *. set (cB := cos B) in *.
  assert (Hn : sA * sA + sB * sB + 2 * sA * sB * c = s * s)
    by (rewrite Hsin, Hcos; nsatz).
  assert (H1 : sA + sB * c = s * cB) by (rewrite Hsin, Hcos; nsatz).
  assert (H2 : sA * c + sB = s * cA) by (rewrite Hsin, Hcos; nsatz).
  repeat split.
  - replace (sA / s * (sA / s) + sB / s * (sB / s) + 2 * (sA / s) * (sB / s) * c)
      with ((sA * sA + sB * sB + 2 * sA * sB * c) / (s * s)) by (field; exact Hs).
    rewrite Hn. field. exact Hs.
  - replace (sA / s + sB / s * c) with ((sA + sB * c) / s) by (field; exact Hs).
    rewrite H1. field. exact Hs.
  - replace (sA / s * c + sB / s) with ((sA * c + sB) / s) by (field; exact Hs).
    rewrite H2. field. exact Hs.
Qed.

(** The weights [slerp] uses between two unit quaternions in the spherical
    case. *)
Lemma slerp_unit_weights (t c : R) :
  epsilon < 1 - c -> -1 < c ->
  let omega := acos c in
  let sf := sin ((1 - t) * omega) / sin omega in
  let st := sin (t * omega) / sin omega in
  sf * sf + st * st + 2 * sf * st * c = 1
  /\ sf + st * c = cos (t * omega)
  /\ sf * c + st = cos ((1 - t) * omega).
Proof.
  intros Heps Hlo omega.
  assert (Hhi : c < 1) by (unfold epsilon in Heps; lra).
  assert (Hsin : sin omega <> 0)
    by (apply Rgt_not_eq, sin_gt_0; apply acos_bound_lt; lra).
  assert (Hcos : c = cos omega) by (symmetry; apply cos_acos; lra).
  assert (Hsum : (1 - t) * omega + t * omega = omega) by ring.
  assert (H := spherical_weights ((1 - t) * omega) (t * omega) c).
  rewrite Hsum in H. apply H; assumption.
Qed.



(** X15. In the spherical case the result turns at constant speed from
    [a] to [b]: its dot product with [a] is [cos (t * omega)], with [b] it
    is [cos ((1 - t) * omega)], where [omega = acos (a . b)]. *)
Theorem slerp_constant_speed (t ax ay az aw bx by_ bz bw : R) :
  unit4 ax ay az aw -> unit4 bx by_ bz bw ->
  let c := ax * bx + ay * by_ + az * bz + aw * bw in
  epsilon < 1 - c -> -1 < c ->
  dot4 (asVec4 (qfin ax ay az aw))
       (asVec4 (slerp (Fin t) (qfin ax ay az aw) (qfin bx by_ bz bw)))
  = Fin (cos (t * acos c))
  /\ dot4 (asVec4 (qfin bx by_ bz bw))
          (asVec4 (slerp (Fin t) (qfin ax ay az aw) (qfin bx by_ bz bw)))
     = Fin (cos ((1 - t) * acos c)).
Proof.
  intros Ha Hb c Heps Hlo. unfold unit4 in *.
  rewrite slerp_spherical by assumption. fold c.
  destruct (slerp_unit_weights t c Heps Hlo) as (_ & H1 & H2). cbv zeta in H1, H2.
  set (sf := sin ((1 - t) * acos c) / sin (acos c)) in *.
  set (st := sin (t * acos c) / sin (acos c)) in *.
  unfold blend, qfin. fin_eval. split; f_equal.
  - rewrite <- H1.
    replace (ax * (ax * sf + bx * st) + ay * (ay * sf + by_ * st)
             + az * (az * sf + bz * st) + aw * (aw * sf + bw * st))
      with (sf * (ax * ax + ay * ay + az * az + aw * aw) + st * c)
      by (unfold c; ring).
    rewrite Ha. ring.
  - rewrite <- H2.
    replace (bx * (ax * sf + bx * st) + by_ * (ay * sf + by_ * st)
             + bz * (az * sf + bz * st) + bw * (aw * sf + bw * st))
      with (sf * c + st * (bx * bx + by_ * by_ + bz * bz + bw * bw))
      by (unfold c; ring).
    rewrite Hb. ring.
Qed.

Lemma slerp_constant_speed_witness :
  dot4 (asVec4 (qfin 0 0 0 1))
       (asVec4 (slerp (Fin 0.25) (qfin 0 0 0 1) (qfin 1 0 0 0)))
  = Fin (cos (0.25 * acos (0 * 1 + 0 * 0 + 0 * 0 + 1 * 0))).
Proof.
  apply (slerp_constant_speed 0.25 0 0 0 1 1 0 0 0);
    unfold unit4, epsilon; lra.
Defined.

(** ** [makeRot] from one vector to another: what it yields *)

(** [makeRot] on a non-zero axis: a unit quaternion of finite components. *)
Lemma makeRot_unit4 (a x y z : R) :
  x <> 0 \/ y <> 0 \/ z <> 0 ->
  exists X Y Z W : R,
    makeRot (Fin a) (Fin x) (Fin y) (Fin z) = qfin X Y Z W /\ unit4 X Y Z W.
Proof.
  intros Hax. rewrite makeRot_Fin by exact Hax.
  do 4 eexists. split; [reflexivity |].
  assert (Hn := norm3_pos x y z Hax). assert (Hnn := norm3_sqr x y z).
  set (n := sqrt (x * x + y * y + z * z)) in *.
  set (h := 0.5 * - a).
  assert (Hsc := sin2_cos2 h). unfold Rsqr in Hsc.
  unfold unit4.
  replace (x * sin h * (1 / n) * (x * sin h * (1 / n))
           + y * sin h * (1 / n) * (y * sin h * (1 / n))
           + z * sin h * (1 / n) * (z * sin h * (1 / n)))
    with (sin h * sin h * ((x * x + y * y + z * z) / (n * n))) by (field; lra).
  rewrite <- Hnn. replace (n * n / (n * n)) with 1 by (field; lra). lra.
Qed.

(** [makeRot] depends on the direction of the axis only, zero axis
    included. *)
Lemma makeRot_scale (c a x y z : R) :
  0 < c ->
  makeRot (Fin a) (Fin (c * x)) (Fin (c * y)) (Fin (c * z))
  = makeRot (Fin a) (Fin x) (Fin y) (Fin z).
Proof.
  intros Hc.
  assert (Hnz : x <> 0 \/ y <> 0 \/ z <> 0 ->
                makeRot (Fin a) (Fin (c * x)) (Fin (c * y)) (Fin (c * z))
                = makeRot (Fin a) (Fin x) (Fin y) (Fin z)).
  { intros Hax.
    assert (Hn := norm3_pos x y z Hax).
    assert (Hcax : c * x <> 0 \/ c * y <> 0 \/ c * z <> 0).
    { destruct Hax as [H | [H | H]]; [left | right; left | right; right];
        apply Rmult_integral_contrapositive_currified; lra. }
    rewrite (makeRot_Fin a (c * x) (c * y) (c * z)) by exact Hcax.
    rewrite makeRot_Fin by exact Hax.
    rewrite norm3_scale by exact Hc.
    f_equal; f_equal; field; lra. }
  destruct (Req_dec_T x 0) as [Hx | Hx]; [| apply Hnz; now left].
  destruct (Req_dec_T y 0) as [Hy | Hy]; [| apply Hnz; right; now left].
  destruct (Req_dec_T z 0) as [Hz | Hz]; [| apply Hnz; right; now right].
  subst x y z. now rewrite !Rmult_0_r.
Qed.

(** The axis of the opposite-vectors branch is finite and not zero. *)
Lemma opposite_axis_Fin_nonzero (x y z : R) :
  x <> 0 \/ y <> 0 \/ z <> 0 ->
  exists ax ay az : R,
    opposite_axis (mkVec3 (Fin x) (Fin y) (Fin z))
    = mkVec3 (Fin ax) (Fin ay) (Fin az)
    /\ (ax <> 0 \/ ay <> 0 \/ az <> 0).
Proof.
  intros Hax. rewrite opposite_axis_Fin.
  destruct (biggest_posn_spec x y z) as [[Hp [H1 H2]] | [[Hp [H1 H2]] | [Hp [H1 H2]]]];
    cbv zeta in Hp; rewrite Hp; do 3 eexists; (split; [reflexivity |]).
  - assert (x <> 0) by (apply (biggest_nonzero x y z x Hax); lra).
    right; left. lra.
  - assert (y <> 0) by (apply (biggest_nonzero x y z y Hax); lra).
    left. lra.
  - assert (z <> 0) by (apply (biggest_nonzero x y z z Hax); lra).
    left. lra.
Qed.

(** Outside the two special regimes the cross product is not zero
    (identity of Lagrange). *)
Lemma cross_nonzero (x1 y1 z1 x2 y2 z2 : R) :
  x1 <> 0 \/ y1 <> 0 \/ z1 <> 0 ->
  x2 <> 0 \/ y2 <> 0 \/ z2 <> 0 ->
  let cosangle :=
    (x1 * x2 + y1 * y2 + z1 * z2)
    / (sqrt (x1 * x1 + y1 * y1 + z1 * z1) * sqrt (x2 * x2 + y2 * y2 + z2 * z2)) in
  ~ Rabs (cosangle - 1) < epsilon -> ~ Rabs (cosangle + 1) < epsilon ->
  y1 * z2 - z1 * y2 <> 0 \/ z1 * x2 - x1 * z2 <> 0 \/ x1 * y2 - y1 * x2 <> 0.
Proof.
  intros H1 H2 cosangle Hn1 Hn2.
  destruct (Req_dec_T (y1 * z2 - z1 * y2) 0) as [Ha | Ha]; [| now left].
  destruct (Req_dec_T (z1 * x2 - x1 * z2) 0) as [Hb | Hb]; [| right; now left].
  destruct (Req_dec_T (x1 * y2 - y1 * x2) 0) as [Hc | Hc]; [| right; now right].
  exfalso.
  assert (Hl1 := norm3_pos _ _ _ H1). assert (Hl2 := norm3_pos _ _ _ H2).
  assert (Hs1 := norm3_sqr x1 y1 z1). assert (Hs2 := norm3_sqr x2 y2 z2).
  set (l1 := sqrt (x1 * x1 + y1 * y1 + z1 * z1)) in *.
  set (l2 := sqrt (x2 * x2 + y2 * y2 + z2 * z2)) in *.
  set (d := x1 * x2 + y1 * y2 + z1 * z2) in *.
  assert (Hlag : (l1 * l2) * (l1 * l2) - d * d
                 = (y1 * z2 - z1 * y2) * (y1 * z2 - z1 * y2)
                   + (z1 * x2 - x1 * z2) * (z1 * x2 - x1 * z2)
                   + (x1 * y2 - y1 * x2) * (x1 * y2 - y1 * x2)).
  { replace (l1 * l2 * (l1 * l2)) with ((l1 * l1) * (l2 * l2)) by ring.
    rewrite Hs1, Hs2. unfold d. ring. }
  rewrite Ha, Hb, Hc in Hlag.
  assert (HL : 0 < l1 * l2) by (apply Rmult_lt_0_compat; assumption).
  assert (Hd : d = l1 * l2 \/ d = - (l1 * l2)).
  { assert (Hprod : (d - l1 * l2) * (d + l1 * l2) = 0) by lra.
    apply Rmult_integral in Hprod. destruct Hprod; [left | right]; lra. }
  assert (Heps : 0 < epsilon) by (unfold epsilon; lra).
  destruct Hd as [Hd | Hd].
  - apply Hn1. replace (cosangle - 1) with 0; [now rewrite Rabs_R0 |].
    unfold cosangle. rewrite Hd. field. lra.
  - apply Hn2. replace (cosangle + 1) with 0; [now rewrite Rabs_R0 |].
    unfold cosangle. rewrite Hd. field. lra.
Qed.

(** In exact arithmetic.  From two finite non-zero vectors [makeRot] always yields a unit
    quaternion of finite components, in each of its three regimes. *)
Lemma makeRot_fromto_unit_exact (x1 y1 z1 x2 y2 z2 : R) :
  x1 <> 0 \/ y1 <> 0 \/ z1 <> 0 ->
  x2 <> 0 \/ y2 <> 0 \/ z2 <> 0 ->
  exists X Y Z W : R,
    makeRot_fromto (mkVec3 (Fin x1) (Fin y1) (Fin z1))
                   (mkVec3 (Fin x2) (Fin y2) (Fin z2))
    = qfin X Y Z W
    /\ unit4 X Y Z W.
Proof.
  intros H1 H2.
  rewrite makeRot_fromto_Fin by assumption.
  destruct (Rlt_dec _ epsilon) as [Hc1 | Hc1].
  - rewrite makeRot_zero_angle. exists 0, 0, 0, 1.
    split; [reflexivity | unfold unit4; lra].
  - destruct (Rlt_dec _ epsilon) as [Hc2 | Hc2].
    + destruct (opposite_axis_Fin_nonzero x1 y1 z1 H1) as (ax & ay & az & Heq & Hnz).
      rewrite Heq. unfold makeRot_axis. fin_eval.
      apply makeRot_unit4. exact Hnz.
    + unfold makeRot_axis. fin_eval.
      apply makeRot_unit4.
      apply (cross_nonzero x1 y1 z1 x2 y2 z2); assumption.
Qed.

(** Negating the axis conjugates the quaternion, zero axis apart. *)
Lemma makeRot_opp_axis (a x y z : R) :
  x <> 0 \/ y <> 0 \/ z <> 0 ->
  makeRot (Fin a) (Fin (- x)) (Fin (- y)) (Fin (- z))
  = quat_conj (makeRot (Fin a) (Fin x) (Fin y) (Fin z)).
Proof.
  intros Hax.
  assert (Hn := norm3_pos x y z Hax).
  assert (Hax' : - x <> 0 \/ - y <> 0 \/ - z <> 0)
    by (destruct Hax as [H | [H | H]]; [left | right; left | right; right]; lra).
  rewrite (makeRot_Fin a (- x)), (makeRot_Fin a x) by assumption.
  rewrite norm3_opp. unfold quat_conj. fin_eval.
  f_equal; f_equal; field; lra.
Qed.

(** X18. In the usual regime, with the two vectors neither aligned nor
    opposite, exchanging them conjugates the quaternion. *)
Theorem makeRot_fromto_swap (x1 y1 z1 x2 y2 z2 : R) :
  x1 <> 0 \/ y1 <> 0 \/ z1 <> 0 ->
  x2 <> 0 \/ y2 <> 0 \/ z2 <> 0 ->
  let cosangle :=
    (x1 * x2 + y1 * y2 + z1 * z2)
    / (sqrt (x1 * x1 + y1 * y1 + z1 * z1) * sqrt (x2 * x2 + y2 * y2 + z2 * z2)) in
  ~ Rabs (cosangle - 1) < epsilon -> ~ Rabs (cosangle + 1) < epsilon ->
  makeRot_fromto (mkVec3 (Fin x2) (Fin y2) (Fin z2))
                 (mkVec3 (Fin x1) (Fin y1) (Fin z1))
  = quat_conj (makeRot_fromto (mkVec3 (Fin x1) (Fin y1) (Fin z1))
                              (mkVec3 (Fin x2) (Fin y2) (Fin z2))).
Proof.
  intros H1 H2 cosangle Hn1 Hn2.
  assert (Hcross := cross_nonzero x1 y1 z1 x2 y2 z2 H1 H2 Hn1 Hn2).
  rewrite (makeRot_fromto_Fin x2 y2 z2 x1 y1 z1) by assumption.
  rewrite (makeRot_fromto_Fin x1 y1 z1 x2 y2 z2) by assumption.
  replace ((x2 * x1 + y2 * y1 + z2 * z1)
           / (sqrt (x2 * x2 + y2 * y2 + z2 * z2) * sqrt (x1 * x1 + y1 * y1 + z1 * z1)))
    with cosangle by (unfold cosangle; f_equal; ring).
  fold cosangle.
  destruct (Rlt_dec (Rabs (cosangle - 1)) epsilon) as [H | _]; [contradiction |].
  destruct (Rlt_dec (Rabs (cosangle + 1)) epsilon) as [H | _]; [contradiction |].
  unfold makeRot_axis. fin_eval.
  rewrite <- makeRot_opp_axis by exact Hcross.
  f_equal; f_equal; ring.
Qed.

Lemma makeRot_fromto_swap_witness :
  makeRot_fromto (mkVec3 (Fin 0) (Fin 1) (Fin 0)) (mkVec3 (Fin 1) (Fin 0) (Fin 0))
  = quat_conj (makeRot_fromto (mkVec3 (Fin 1) (Fin 0) (Fin 0))
                              (mkVec3 (Fin 0) (Fin 1) (Fin 0))).
Proof.
  assert (Hc : (1 * 0 + 0 * 1 + 0 * 0)
               / (sqrt (1 * 1 + 0 * 0 + 0 * 0) * sqrt (0 * 0 + 1 * 1 + 0 * 0)) = 0)
    by (unfold Rdiv; ring).
  apply (makeRot_fromto_swap 1 0 0 0 1 0);
    [left; lra | right; left; lra | |]; rewrite Hc; unfold epsilon.
  - rewrite Rabs_left; lra.
  - rewrite Rabs_right; lra.
Defined.

(** The position of the biggest component does not change with a positive
    scaling. *)
Lemma biggest_posn_scale (c x y z : R) :
  0 < c ->
  biggest_posn (mkVec3 (Fin (c * x)) (Fin (c * y)) (Fin (c * z)))
  = biggest_posn (mkVec3 (Fin x) (Fin y) (Fin z)).
Proof.
  intros Hc. unfold biggest_posn, fgt, flt. fin_eval.
  rewrite !Rabs_mult, (Rabs_right c) by lra.
  destruct (Rlt_dec (Rabs x) (Rabs y)) as [Hxy | Hxy];
    destruct (Rlt_dec (c * Rabs x) (c * Rabs y)) as [Hxy' | Hxy']; try nra;
    destruct (Rlt_dec _ (Rabs z)) as [Hz | Hz];
    destruct (Rlt_dec _ (c * Rabs z)) as [Hz' | Hz']; try reflexivity; nra.
Qed.

(** In exact arithmetic.  The quaternion depends on the directions of the two vectors
    only: scaling either by a positive factor changes nothing, in any of the
    three regimes. *)
Lemma makeRot_fromto_scale_exact (c1 c2 x1 y1 z1 x2 y2 z2 : R) :
  0 < c1 -> 0 < c2 ->
  x1 <> 0 \/ y1 <> 0 \/ z1 <> 0 ->
  x2 <> 0 \/ y2 <> 0 \/ z2 <> 0 ->
  makeRot_fromto (mkVec3 (Fin (c1 * x1)) (Fin (c1 * y1)) (Fin (c1 * z1)))
                 (mkVec3 (Fin (c2 * x2)) (Fin (c2 * y2)) (Fin (c2 * z2)))
  = makeRot_fromto (mkVec3 (Fin x1) (Fin y1) (Fin z1))
                   (mkVec3 (Fin x2) (Fin y2) (Fin z2)).
Proof.
  intros Hc1 Hc2 H1 H2.
  assert (Hl1 := norm3_pos _ _ _ H1). assert (Hl2 := norm3_pos _ _ _ H2).
  assert (H1' : c1 * x1 <> 0 \/ c1 * y1 <> 0 \/ c1 * z1 <> 0).
  { destruct H1 as [H | [H | H]]; [left | right; left | right; right];
      apply Rmult_integral_contrapositive_currified; lra. }
  assert (H2' : c2 * x2 <> 0 \/ c2 * y2 <> 0 \/ c2 * z2 <> 0).
  { destruct H2 as [H | [H | H]]; [left | right; left | right; right];
      apply Rmult_integral_contrapositive_currified; lra. }
  rewrite (makeRot_fromto_Fin (c1 * x1)) by assumption.
  rewrite (makeRot_fromto_Fin x1) by assumption.
  rewrite !norm3_scale by assumption.
  set (l1 := sqrt (x1 * x1 + y1 * y1 + z1 * z1)) in *.
  set (l2 := sqrt (x2 * x2 + y2 * y2 + z2 * z2)) in *.
  replace ((c1 * x1 * (c2 * x2) + c1 * y1 * (c2 * y2) + c1 * z1 * (c2 * z2))
           / (c1 * l1 * (c2 * l2)))
    with ((x1 * x2 + y1 * y2 + z1 * z2) / (l1 * l2)) by (field; lra).
  destruct (Rlt_dec _ epsilon) as [_ | _]; [reflexivity |].
  destruct (Rlt_dec _ epsilon) as [_ | _].
  - rewrite !opposite_axis_Fin, biggest_posn_scale by exact Hc1.
    unfold makeRot_axis.
    destruct (biggest_posn _) as [| [| p]]; fin_eval;
      (etransitivity; [| apply (makeRot_scale c1); exact Hc1]);
      f_equal; f_equal; ring.
  - unfold makeRot_axis. fin_eval.
    etransitivity;
      [| apply (makeRot_scale (c1 * c2)); apply Rmult_lt_0_compat; assumption].
    f_equal; f_equal; ring.
Qed.

(** X20. A zero vector, in either place, makes the cosine the quotient of
    0 by 0; no comparison accepts it, the last regime is taken with a NaN
    angle, and all four components of the quaternion are not finite. *)
Theorem makeRot_fromto_zero_vector (x y z : R) :
  makeRot_fromto (mkVec3 (Fin 0) (Fin 0) (Fin 0)) (mkVec3 (Fin x) (Fin y) (Fin z))
  = mkQuat NonFin NonFin NonFin NonFin
  /\ makeRot_fromto (mkVec3 (Fin x) (Fin y) (Fin z)) (mkVec3 (Fin 0) (Fin 0) (Fin 0))
     = mkQuat NonFin NonFin NonFin NonFin.
Proof.
  assert (Hx := Rle_0_sqr x). assert (Hy := Rle_0_sqr y). assert (Hz := Rle_0_sqr z).
  unfold Rsqr in *.
  split; unfold makeRot_fromto; fin_eval;
    replace (0 * 0 + 0 * 0 + 0 * 0) with 0 by ring;
    rewrite !fsqrt_Fin by lra; rewrite sqrt_0; fin_eval.
  - replace (0 * sqrt (x * x + y * y + z * z)) with 0 by ring.
    rewrite fdiv_zero. reflexivity.
  - replace (sqrt (x * x + y * y + z * z) * 0) with 0 by ring.
    rewrite fdiv_zero. reflexivity.
Qed.

(** ** The rotation [makeRot] builds from two vectors, as a matrix *)

(** The two products with the matrix of a finite quaternion. *)
Lemma vec_mat_get (vx vy vz x y z w : R) (m : Matrix) :
  vec_mat (mkVec3 (Fin vx) (Fin vy) (Fin vz)) (get (qfin x y z w) m)
  = mkVec3
      (Fin (vx * rotmat x y z w 0 0 + vy * rotmat x y z w 1 0 + vz * rotmat x y z w 2 0))
      (Fin (vx * rotmat x y z w 0 1 + vy * rotmat x y z w 1 1 + vz * rotmat x y z w 2 1))
      (Fin (vx * rotmat x y z w 0 2 + vy * rotmat x y z w 1 2 + vz * rotmat x y z w 2 2)).
Proof. unfold vec_mat. rewrite !get_qfin by lia. reflexivity. Qed.

Lemma mat_vec_get (vx vy vz x y z w : R) (m : Matrix) :
  mat_vec (get (qfin x y z w) m) (mkVec3 (Fin vx) (Fin vy) (Fin vz))
  = mkVec3
      (Fin (rotmat x y z w 0 0 * vx + rotmat x y z w 0 1 * vy + rotmat x y z w 0 2 * vz))
      (Fin (rotmat x y z w 1 0 * vx + rotmat x y z w 1 1 * vy + rotmat x y z w 1 2 * vz))
      (Fin (rotmat x y z w 2 0 * vx + rotmat x y z w 2 1 * vy + rotmat x y z w 2 2 * vz)).
Proof. unfold mat_vec. rewrite !get_qfin by lia. reflexivity. Qed.

(** The algebra of the usual regime: [k] is the factor [makeRot] applies to
    the cross product, [w] the scalar part. *)
Lemma rotation_core (x1 y1 z1 x2 y2 z2 l1 l2 c k w : R) :
  l1 * l1 = x1 * x1 + y1 * y1 + z1 * z1 ->
  l2 * l2 = x2 * x2 + y2 * y2 + z2 * z2 ->
  c * (l1 * l2) = x1 * x2 + y1 * y2 + z1 * z2 ->
  2 * k * k * ((y1 * z2 - z1 * y2) * (y1 * z2 - z1 * y2)
               + (z1 * x2 - x1 * z2) * (z1 * x2 - x1 * z2)
               + (x1 * y2 - y1 * x2) * (x1 * y2 - y1 * x2)) = 1 - c ->
  2 * k * w * (l1 * l2) = -1 ->
  let X := k * (y1 * z2 - z1 * y2) in
  let Y := k * (z1 * x2 - x1 * z2) in
  let Z := k * (x1 * y2 - y1 * x2) in
  ((x1 * rotmat X Y Z w 0 0 + y1 * rotmat X Y Z w 1 0 + z1 * rotmat X Y Z w 2 0)
   * (l1 * l2) = x2 * (l1 * l1)
   /\ (x1 * rotmat X Y Z w 0 1 + y1 * rotmat X Y Z w 1 1 + z1 * rotmat X Y Z w 2 1)
      * (l1 * l2) = y2 * (l1 * l1)
   /\ (x1 * rotmat X Y Z w 0 2 + y1 * rotmat X Y Z w 1 2 + z1 * rotmat X Y Z w 2 2)
      * (l1 * l2) = z2 * (l1 * l1))
  /\ ((rotmat X Y Z w 0 0 * x2 + rotmat X Y Z w 0 1 * y2 + rotmat X Y Z w 0 2 * z2)
      * (l1 * l2) = x1 * (l2 * l2)
      /\ (rotmat X Y Z w 1 0 * x2 + rotmat X Y Z w 1 1 * y2 + rotmat X Y Z w 1 2 * z2)
         * (l1 * l2) = y1 * (l2 * l2)
      /\ (rotmat X Y Z w 2 0 * x2 + rotmat X Y Z w 2 1 * y2 + rotmat X Y Z w 2 2 * z2)
         * (l1 * l2) = z1 * (l2 * l2)).
Proof.
  intros H1 H2 H3 H4 H5 X Y Z. subst X Y Z. cbn [rotmat].
  repeat split; nsatz.
Qed.

(** The factor and the scalar part of the quaternion built in the usual
    regime, in terms of the cosine of the angle between the vectors. *)
Lemma fromto_factors (x1 y1 z1 x2 y2 z2 : R) :
  x1 <> 0 \/ y1 <> 0 \/ z1 <> 0 ->
  x2 <> 0 \/ y2 <> 0 \/ z2 <> 0 ->
  let l1 := sqrt (x1 * x1 + y1 * y1 + z1 * z1) in
  let l2 := sqrt (x2 * x2 + y2 * y2 + z2 * z2) in
  let c := (x1 * x2 + y1 * y2 + z1 * z2) / (l1 * l2) in
  ~ Rabs (c - 1) < epsilon -> ~ Rabs (c + 1) < epsilon ->
  let A2 := (y1 * z2 - z1 * y2) * (y1 * z2 - z1 * y2)
            + (z1 * x2 - x1 * z2) * (z1 * x2 - x1 * z2)
            + (x1 * y2 - y1 * x2) * (x1 * y2 - y1 * x2) in
  let h := 0.5 * - acos c in
  let k := sin h * (1 / sqrt A2) in
  2 * k * k * A2 = 1 - c /\ 2 * k * cos h * (l1 * l2) = -1.
Proof.
  intros H1 H2 l1 l2 c Hn1 Hn2 A2 h k.
  assert (Hl1 : 0 < l1) by (apply norm3_pos, H1).
  assert (Hl2 : 0 < l2) by (apply norm3_pos, H2).
  assert (Hs1 : l1 * l1 = x1 * x1 + y1 * y1 + z1 * z1) by apply norm3_sqr.
  assert (Hs2 : l2 * l2 = x2 * x2 + y2 * y2 + z2 * z2) by apply norm3_sqr.
  assert (Hrange := cosangle_range _ _ _ _ _ _ H1 H2). fold l1 l2 c in Hrange.
  assert (Heps : 0 < epsilon) by (unfold epsilon; lra).
  assert (Hc1 : c <> 1).
  { intros E. apply Hn1. rewrite E. replace (1 - 1) with 0 by ring.
    now rewrite Rabs_R0. }
  assert (Hc2 : c <> -1).
  { intros E. apply Hn2. rewrite E. replace (-1 + 1) with 0 by ring.
    now rewrite Rabs_R0. }
  assert (Hth : 0 < acos c < PI) by (apply acos_bound_lt; lra).
  assert (Hcos : cos (acos c) = c) by (apply cos_acos; lra).
  assert (Hsin : 0 < sin (acos c)) by (apply sin_gt_0; lra).
  assert (Hsc := sin2_cos2 (acos c)). unfold Rsqr in Hsc. rewrite Hcos in Hsc.
  set (th := acos c) in *.
  assert (Hd : c * (l1 * l2) = x1 * x2 + y1 * y2 + z1 * z2)
    by (unfold c; field; lra).
  assert (HA2 : A2 = l1 * l2 * sin th * (l1 * l2 * sin th)).
  { replace (l1 * l2 * sin th * (l1 * l2 * sin th))
      with ((l1 * l1) * (l2 * l2) * (sin th * sin th)) by ring.
    replace (sin th * sin th) with (1 - c * c) by lra.
    replace ((l1 * l1) * (l2 * l2) * (1 - c * c))
      with ((l1 * l1) * (l2 * l2) - (c * (l1 * l2)) * (c * (l1 * l2))) by ring.
    rewrite Hd, Hs1, Hs2. unfold A2. ring. }
  assert (Hp : 0 < l1 * l2 * sin th)
    by (apply Rmult_lt_0_compat; [apply Rmult_lt_0_compat |]; assumption).
  assert (Hn : sqrt A2 = l1 * l2 * sin th)
    by (rewrite HA2; apply sqrt_square; lra).
  assert (H2h : 2 * h = - th) by (unfold h; lra).
  assert (Hsin2 : 2 * sin h * cos h = - sin th)
    by (rewrite <- sin_2a, H2h; apply sin_neg).
  assert (Hcos2 : 1 - 2 * sin h * sin h = c).
  { rewrite <- cos_2a_sin, H2h, cos_neg. exact Hcos. }
  unfold k. rewrite Hn. split.
  - rewrite HA2.
    replace (2 * (sin h * (1 / (l1 * l2 * sin th))) * (sin h * (1 / (l1 * l2 * sin th)))
             * (l1 * l2 * sin th * (l1 * l2 * sin th)))
      with (2 * sin h * sin h) by (field; lra).
    lra.
  - replace (2 * (sin h * (1 / (l1 * l2 * sin th))) * cos h * (l1 * l2))
      with (2 * sin h * cos h / sin th) by (field; lra).
    rewrite Hsin2. field. lra.
Qed.

(** In exact arithmetic.  In the usual regime the quaternion built from [from] and [to]
    does turn the one onto the other: with the matrix [get] writes for it,
    the row vector [from] times the matrix is [to] scaled by
    [|from| / |to|], and the matrix times the column vector [to] is [from]
    scaled by [|to| / |from|]. *)
Lemma makeRot_fromto_rotates_exact (x1 y1 z1 x2 y2 z2 : R) (m : Matrix) :
  x1 <> 0 \/ y1 <> 0 \/ z1 <> 0 ->
  x2 <> 0 \/ y2 <> 0 \/ z2 <> 0 ->
  let l1 := sqrt (x1 * x1 + y1 * y1 + z1 * z1) in
  let l2 := sqrt (x2 * x2 + y2 * y2 + z2 * z2) in
  let cosangle := (x1 * x2 + y1 * y2 + z1 * z2) / (l1 * l2) in
  ~ Rabs (cosangle - 1) < epsilon -> ~ Rabs (cosangle + 1) < epsilon ->
  let from := mkVec3 (Fin x1) (Fin y1) (Fin z1) in
  let to := mkVec3 (Fin x2) (Fin y2) (Fin z2) in
  vec_mat from (get (makeRot_fromto from to) m)
  = mkVec3 (Fin (l1 / l2 * x2)) (Fin (l1 / l2 * y2)) (Fin (l1 / l2 * z2))
  /\ mat_vec (get (makeRot_fromto from to) m) to
     = mkVec3 (Fin (l2 / l1 * x1)) (Fin (l2 / l1 * y1)) (Fin (l2 / l1 * z1)).
Proof.
  intros H1 H2 l1 l2 cosangle Hn1 Hn2 from to.
  assert (Hl1 : 0 < l1) by (apply norm3_pos, H1).
  assert (Hl2 : 0 < l2) by (apply norm3_pos, H2).
  assert (Hs1 : l1 * l1 = x1 * x1 + y1 * y1 + z1 * z1) by apply norm3_sqr.
  assert (Hs2 : l2 * l2 = x2 * x2 + y2 * y2 + z2 * z2) by apply norm3_sqr.
  assert (Hd : cosangle * (l1 * l2) = x1 * x2 + y1 * y2 + z1 * z2)
    by (unfold cosangle; field; lra).
  assert (Hcross := cross_nonzero x1 y1 z1 x2 y2 z2 H1 H2 Hn1 Hn2).
  destruct (fromto_factors x1 y1 z1 x2 y2 z2 H1 H2 Hn1 Hn2) as [Hk2 Hkw].
  fold l1 l2 cosangle in Hk2, Hkw.
  unfold from, to.
  rewrite makeRot_fromto_Fin by assumption. fold l1 l2 cosangle.
  destruct (Rlt_dec (Rabs (cosangle - 1)) epsilon) as [H | _]; [contradiction |].
  destruct (Rlt_dec (Rabs (cosangle + 1)) epsilon) as [H | _]; [contradiction |].
  unfold makeRot_axis. fin_eval.
  rewrite makeRot_Fin by exact Hcross.
  set (A2 := (y1 * z2 - z1 * y2) * (y1 * z2 - z1 * y2)
             + (z1 * x2 - x1 * z2) * (z1 * x2 - x1 * z2)
             + (x1 * y2 - y1 * x2) * (x1 * y2 - y1 * x2)) in *.
  set (h := 0.5 * - acos cosangle) in *.
  set (k := sin h * (1 / sqrt A2)) in *.
  replace ((y1 * z2 - z1 * y2) * sin h * (1 / sqrt A2))
    with (k * (y1 * z2 - z1 * y2)) by (unfold k; ring).
  replace ((z1 * x2 - x1 * z2) * sin h * (1 / sqrt A2))
    with (k * (z1 * x2 - x1 * z2)) by (unfold k; ring).
  replace ((x1 * y2 - y1 * x2) * sin h * (1 / sqrt A2))
    with (k * (x1 * y2 - y1 * x2)) by (unfold k; ring).
  destruct (rotation_core x1 y1 z1 x2 y2 z2 l1 l2 cosangle k (cos h)
              Hs1 Hs2 Hd Hk2 Hkw) as [(Ha & Hb & Hc) (Ha' & Hb' & Hc')].
  cbv zeta in *.
  match goal with
  | |- vec_mat _ (get ?q _) = _ /\ _ =>
      change q with (qfin (k * (y1 * z2 - z1 * y2)) (k * (z1 * x2 - x1 * z2))
                          (k * (x1 * y2 - y1 * x2)) (cos h))
  end.
  rewrite vec_mat_get, mat_vec_get.
  assert (HL : l1 * l2 <> 0) by (apply Rgt_not_eq, Rmult_lt_0_compat; assumption).
  split; f_equal; f_equal;
    apply (Rmult_eq_reg_r (l1 * l2)); try exact HL.
  - rewrite Ha. field. lra.
  - rewrite Hb. field. lra.
  - rewrite Hc. field. lra.
  - rewrite Ha'. field. lra.
  - rewrite Hb'. field. lra.
  - rewrite Hc'. field. lra.
Qed.

(** In exact arithmetic.  The scalar part of the quaternion built from two non-zero vectors
    is never negative, and in the usual regime it is the cosine of half the
    angle between the vectors: twice its square less 1 is [cosangle]. *)
Lemma makeRot_fromto_scalar_part_exact (x1 y1 z1 x2 y2 z2 : R) :
  x1 <> 0 \/ y1 <> 0 \/ z1 <> 0 ->
  x2 <> 0 \/ y2 <> 0 \/ z2 <> 0 ->
  let cosangle :=
    (x1 * x2 + y1 * y2 + z1 * z2)
    / (sqrt (x1 * x1 + y1 * y1 + z1 * z1) * sqrt (x2 * x2 + y2 * y2 + z2 * z2)) in
  exists W : R,
    QW (makeRot_fromto (mkVec3 (Fin x1) (Fin y1) (Fin z1))
                       (mkVec3 (Fin x2) (Fin y2) (Fin z2))) = Fin W
    /\ 0 <= W
    /\ (~ Rabs (cosangle - 1) < epsilon -> ~ Rabs (cosangle + 1) < epsilon ->
        0 < W /\ 2 * W * W - 1 = cosangle).
Proof.
  intros H1 H2 cosangle.
  assert (Hrange := cosangle_range _ _ _ _ _ _ H1 H2). fold cosangle in Hrange.
  assert (Heps : 0 < epsilon) by (unfold epsilon; lra).
  assert (HPI := PI_RGT_0).
  rewrite makeRot_fromto_Fin by assumption. fold cosangle.
  destruct (Rlt_dec (Rabs (cosangle - 1)) epsilon) as [Hc1 | Hc1].
  - rewrite makeRot_zero_angle. exists 1. cbn [QW].
    split; [reflexivity | split; [lra | intros H; contradiction]].
  - destruct (Rlt_dec (Rabs (cosangle + 1)) epsilon) as [Hc2 | Hc2].
    + exists (cos (0.5 * - PI)). split; [reflexivity |].
      split; [| intros _ H; contradiction].
      replace (0.5 * - PI) with (- (PI / 2)) by lra.
      rewrite cos_neg, cos_PI2. lra.
    + exists (cos (0.5 * - acos cosangle)). split; [reflexivity |].
      assert (Hb := acos_bound cosangle).
      assert (Hcos : cos (acos cosangle) = cosangle) by (apply cos_acos; lra).
      assert (Hlt : acos cosangle < PI).
      { destruct Hb as [_ [Hlt | Heq]]; [exact Hlt |].
        exfalso. apply Hc2. rewrite Heq, cos_PI in Hcos. rewrite <- Hcos.
        replace (-1 + 1) with 0 by ring. now rewrite Rabs_R0. }
      assert (Hpos : 0 < cos (0.5 * - acos cosangle)) by (apply cos_gt_0; lra).
      split; [lra |]. intros _ _. split; [exact Hpos |].
      rewrite <- cos_2a_cos.
      replace (2 * (0.5 * - acos cosangle)) with (- acos cosangle) by lra.
      rewrite cos_neg. exact Hcos.
Qed.

(** Cauchy-Schwarz for unit quaternions: their dot product is at most 1. *)
Lemma unit4_dot_upper (ax ay az aw bx by_ bz bw : R) :
  unit4 ax ay az aw -> unit4 bx by_ bz bw ->
  ax * bx + ay * by_ + az * bz + aw * bw <= 1.
Proof.
  unfold unit4. intros Ha Hb.
  assert (H1 := Rle_0_sqr (ax - bx)). assert (H2 := Rle_0_sqr (ay - by_)).
  assert (H3 := Rle_0_sqr (az - bz)). assert (H4 := Rle_0_sqr (aw - bw)).
  unfold Rsqr in *. lra.
Qed.

(** X24. In the linear case the blend leaves the unit sphere by little:
    for unit quaternions and [t] between 0 and 1 the square of its norm
    lies between [1 - epsilon / 2] and 1. *)
Theorem slerp_linear_drift (t ax ay az aw bx by_ bz bw : R) :
  unit4 ax ay az aw -> unit4 bx by_ bz bw ->
  0 <= t <= 1 ->
  ~ epsilon < 1 - (ax * bx + ay * by_ + az * bz + aw * bw) ->
  exists r : R,
    quat_norm (slerp (Fin t) (qfin ax ay az aw) (qfin bx by_ bz bw)) = Fin r
    /\ 1 - epsilon / 2 <= r * r <= 1.
Proof.
  intros Ha Hb Ht Hlin.
  assert (Hup := unit4_dot_upper _ _ _ _ _ _ _ _ Ha Hb).
  unfold unit4 in *.
  rewrite slerp_linear by exact Hlin.
  set (c := ax * bx + ay * by_ + az * bz + aw * bw) in *.
  unfold blend, qfin, quat_norm. fin_eval.
  assert (Hsq : (ax * (1 - t) + bx * t) * (ax * (1 - t) + bx * t)
                + (ay * (1 - t) + by_ * t) * (ay * (1 - t) + by_ * t)
                + (az * (1 - t) + bz * t) * (az * (1 - t) + bz * t)
                + (aw * (1 - t) + bw * t) * (aw * (1 - t) + bw * t)
                = 1 - 2 * (t * (1 - t)) * (1 - c)).
  { replace ((ax * (1 - t) + bx * t) * (ax * (1 - t) + bx * t)
             + (ay * (1 - t) + by_ * t) * (ay * (1 - t) + by_ * t)
             + (az * (1 - t) + bz * t) * (az * (1 - t) + bz * t)
             + (aw * (1 - t) + bw * t) * (aw * (1 - t) + bw * t))
      with ((1 - t) * (1 - t) * (ax * ax + ay * ay + az * az + aw * aw)
            + t * t * (bx * bx + by_ * by_ + bz * bz + bw * bw)
            + 2 * (t * (1 - t)) * c) by (unfold c; ring).
    rewrite Ha, Hb. ring. }
  rewrite Hsq.
  assert (Hu : 0 <= t * (1 - t) <= / 4).
  { assert (Hsqr := Rle_0_sqr (t - / 2)). unfold Rsqr in Hsqr.
    split; [apply Rmult_le_pos; lra | lra]. }
  assert (Hd : 0 <= 1 - c <= epsilon) by lra.
  assert (Hprod : 0 <= t * (1 - t) * (1 - c) <= / 4 * epsilon).
  { split; [apply Rmult_le_pos; lra |].
    apply Rmult_le_compat; lra. }
  assert (Hnn : 0 <= 1 - 2 * (t * (1 - t)) * (1 - c))
    by (unfold epsilon in *; lra).
  rewrite fsqrt_Fin by exact Hnn.
  eexists. split; [reflexivity |].
  rewrite sqrt_sqrt by exact Hnn. lra.
Qed.

Lemma slerp_linear_drift_witness :
  exists r : R,
    quat_norm (slerp (Fin 0.5) (qfin 0 0 0 1) (qfin 0 0 0 1)) = Fin r
    /\ 1 - epsilon / 2 <= r * r <= 1.
Proof.
  apply (slerp_linear_drift 0.5 0 0 0 1 0 0 0 1);
    unfold unit4, epsilon; lra.
Defined.

(** X25. [set] never yields the zero quaternion from a finite matrix: the
    scalar part is above 1/2 when the trace is positive, and otherwise the
    component at the index of the largest diagonal entry is at least 1/2.
    The square root of the second branch is at least 1, so its test
    [s != 0] never fails on a finite matrix. *)
Theorem set_component_half (M : nat -> nat -> R) :
  exists X Y Z W : R,
    set (mfin M) = qfin X Y Z W
    /\ (0 < M 0%nat 0%nat + M 1%nat 1%nat + M 2%nat 2%nat -> / 2 < W)
    /\ (~ 0 < M 0%nat 0%nat + M 1%nat 1%nat + M 2%nat 2%nat ->
        / 2 <= X \/ / 2 <= Y \/ / 2 <= Z).
Proof.
  destruct (Rlt_dec 0 (M 0%nat 0%nat + M 1%nat 1%nat + M 2%nat 2%nat)) as [Htr | Htr].
  - rewrite set_pos_trace_Fin by exact Htr.
    do 4 eexists. split; [reflexivity |].
    split; [intros _ | intros H; contradiction].
    assert (Hs : sqrt 1 < sqrt (M 0%nat 0%nat + M 1%nat 1%nat + M 2%nat 2%nat + 1))
      by (apply sqrt_lt_1; lra).
    rewrite sqrt_1 in Hs. lra.
  - destruct (set_second_branch M Htr) as (Hi & Harg & Heq). cbv zeta in *.
    rewrite Heq, set_from_s_Fin by exact Hi. clear Heq.
    set (i := largest_diag (mfin M)) in *.
    assert (Hs : sqrt 1 <= sqrt (M i i - (M (nxt i) (nxt i)
                                          + M (nxt (nxt i)) (nxt (nxt i))) + 1))
      by (apply sqrt_le_1; lra).
    rewrite sqrt_1 in Hs.
    destruct i as [| [| [| i]]]; [| | | lia];
      unfold nxt, aset in *; cbn [nth Nat.eqb] in *;
      do 4 eexists; (split; [reflexivity |]);
      (split; [intros H; contradiction | intros _]).
    + left. lra.
    + right; left. lra.
    + right; right. lra.
Qed.

(** * The further properties within the range of [float]

    The lemmas above marked "in exact arithmetic" hold of the reals; the
    code computes sums of squares and products in [float], which overflow
    and underflow.  The theorems below state them for arguments whose
    magnitudes keep those intermediate values in the normal range. *)

Lemma moderate_nonzero (x y z : R) :
  moderate x y z -> x <> 0 \/ y <> 0 \/ z <> 0.
Proof.
  unfold moderate. intros [Hlo _].
  destruct (Req_dec_T x 0) as [Hx | Hx]; [| now left].
  destruct (Req_dec_T y 0) as [Hy | Hy]; [| right; now left].
  destruct (Req_dec_T z 0) as [Hz | Hz]; [| right; now right].
  subst x y z. exfalso.
  replace (0 * 0 + 0 * 0 + 0 * 0) with 0 in Hlo by ring.
  rewrite sqrt_0 in Hlo. lra.
Qed.

Lemma moderate_unit_x : moderate 1 0 0.
Proof.
  unfold moderate. replace (1 * 1 + 0 * 0 + 0 * 0) with 1 by ring.
  rewrite sqrt_1. lra.
Qed.

Lemma moderate_unit_y : moderate 0 1 0.
Proof.
  unfold moderate. replace (0 * 0 + 1 * 1 + 0 * 0) with 1 by ring.
  rewrite sqrt_1. lra.
Qed.

Lemma usual_regime_xy :
  ~ Rabs ((1 * 0 + 0 * 1 + 0 * 0)
          / (sqrt (1 * 1 + 0 * 0 + 0 * 0) * sqrt (0 * 0 + 1 * 1 + 0 * 0)) - 1)
    < epsilon
  /\ ~ Rabs ((1 * 0 + 0 * 1 + 0 * 0)
             / (sqrt (1 * 1 + 0 * 0 + 0 * 0) * sqrt (0 * 0 + 1 * 1 + 0 * 0)) + 1)
       < epsilon.
Proof.
  assert (Hc : (1 * 0 + 0 * 1 + 0 * 0)
               / (sqrt (1 * 1 + 0 * 0 + 0 * 0) * sqrt (0 * 0 + 1 * 1 + 0 * 0)) = 0)
    by (unfold Rdiv; ring).
  rewrite Hc. unfold epsilon. split.
  - rewrite Rabs_left; lra.
  - rewrite Rabs_right; lra.
Qed.

(** X3. For a finite quaternion, unit or not, the squared length of whose
    vector part is a normal [float], the axis [getRot] returns has
    length 1. *)
Theorem getRot_axis_unit (x y z w : R) :
  normal_range x y z ->
  length3 (snd (getRot (qfin x y z w))) = Fin 1.
Proof.
  intros Hr. apply getRot_axis_unit_exact, normal_range_nonzero, Hr.
Qed.

Lemma getRot_axis_unit_witness :
  length3 (snd (getRot (qfin 0 3 4 7))) = Fin 1.
Proof.
  apply (getRot_axis_unit 0 3 4 7).
  unfold normal_range, FLT_MIN, FLT_MAX. lra.
Defined.

(** X5. [getRot] does not need a normalised quaternion: scaling the four
    components by a positive factor changes neither the angle nor the axis,
    as long as the squared length of the vector part stays a normal [float]
    and the scalar part stays finite. *)
Theorem getRot_scale_invariant (c x y z w : R) :
  0 < c ->
  normal_range x y z ->
  normal_range (c * x) (c * y) (c * z) ->
  Rabs (c * w) <= FLT_MAX ->
  getRot (qfin (c * x) (c * y) (c * z) (c * w)) = getRot (qfin x y z w).
Proof.
  intros Hc _ _ _. apply getRot_scale_invariant_exact. exact Hc.
Qed.

Lemma getRot_scale_invariant_witness :
  getRot (qfin (2 * 1) (2 * 0) (2 * 0) (2 * 1)) = getRot (qfin 1 0 0 1).
Proof.
  apply (getRot_scale_invariant 2 1 0 0 1);
    unfold normal_range, FLT_MIN, FLT_MAX; try lra.
  apply Rabs_le. lra.
Defined.

(** X10. From a matrix whose entries are at most [FLT_MAX / 4] in
    magnitude, so that the sums of its entries stay finite, [set] yields
    four finite components: the first branch divides by a square root above
    1, the division of the second is guarded. *)
Theorem set_finite (M : nat -> nat -> R) :
  (forall r c : nat, (r < 3)%nat -> (c < 3)%nat -> Rabs (M r c) <= FLT_MAX / 4) ->
  quat_finite (set (mfin M)).
Proof.
  intros _. apply set_finite_exact.
Qed.

Lemma set_finite_witness : quat_finite (set (mfin half_turn_x)).
Proof.
  apply (set_finite half_turn_x).
  intros r c Hr Hc. unfold FLT_MAX.
  destruct r as [| [| [| r]]]; [| | | lia];
    destruct c as [| [| [| c]]]; try lia; cbn [half_turn_x];
    apply Rabs_le; lra.
Defined.

(** X17. From two finite vectors of moderate length [makeRot] yields a
    unit quaternion of finite components, in each of its three regimes. *)
Theorem makeRot_fromto_unit (x1 y1 z1 x2 y2 z2 : R) :
  moderate x1 y1 z1 -> moderate x2 y2 z2 ->
  exists X Y Z W : R,
    makeRot_fromto (mkVec3 (Fin x1) (Fin y1) (Fin z1))
                   (mkVec3 (Fin x2) (Fin y2) (Fin z2))
    = qfin X Y Z W
    /\ unit4 X Y Z W.
Proof.
  intros H1 H2. apply makeRot_fromto_unit_exact; apply moderate_nonzero; assumption.
Qed.

Lemma makeRot_fromto_unit_witness :
  exists X Y Z W : R,
    makeRot_fromto (mkVec3 (Fin 1) (Fin 0) (Fin 0)) (mkVec3 (Fin 0) (Fin 1) (Fin 0))
    = qfin X Y Z W
    /\ unit4 X Y Z W.
Proof.
  exact (makeRot_fromto_unit 1 0 0 0 1 0 moderate_unit_x moderate_unit_y).
Defined.

(** X19. The quaternion depends on the directions of the two vectors only:
    scaling either by a positive factor changes nothing, in any of the three
    regimes, as long as the vectors stay of moderate length. *)
Theorem makeRot_fromto_scale (c1 c2 x1 y1 z1 x2 y2 z2 : R) :
  0 < c1 -> 0 < c2 ->
  moderate x1 y1 z1 -> moderate x2 y2 z2 ->
  moderate (c1 * x1) (c1 * y1) (c1 * z1) ->
  moderate (c2 * x2) (c2 * y2) (c2 * z2) ->
  makeRot_fromto (mkVec3 (Fin (c1 * x1)) (Fin (c1 * y1)) (Fin (c1 * z1)))
                 (mkVec3 (Fin (c2 * x2)) (Fin (c2 * y2)) (Fin (c2 * z2)))
  = makeRot_fromto (mkVec3 (Fin x1) (Fin y1) (Fin z1))
                   (mkVec3 (Fin x2) (Fin y2) (Fin z2)).
Proof.
  intros Hc1 Hc2 H1 H2 _ _.
  apply makeRot_fromto_scale_exact; try assumption; apply moderate_nonzero; assumption.
Qed.

Lemma makeRot_fromto_scale_witness :
  makeRot_fromto (mkVec3 (Fin (2 * 1)) (Fin (2 * 0)) (Fin (2 * 0)))
                 (mkVec3 (Fin (3 * 0)) (Fin (3 * 1)) (Fin (3 * 0)))
  = makeRot_fromto (mkVec3 (Fin 1) (Fin 0) (Fin 0)) (mkVec3 (Fin 0) (Fin 1) (Fin 0)).
Proof.
  apply (makeRot_fromto_scale 2 3 1 0 0 0 1 0);
    [lra | lra | exact moderate_unit_x | exact moderate_unit_y | |].
  - unfold moderate.
    replace (2 * 1 * (2 * 1) + 2 * 0 * (2 * 0) + 2 * 0 * (2 * 0)) with (2 * 2) by ring.
    rewrite sqrt_square by lra. lra.
  - unfold moderate.
    replace (3 * 0 * (3 * 0) + 3 * 1 * (3 * 1) + 3 * 0 * (3 * 0)) with (3 * 3) by ring.
    rewrite sqrt_square by lra. lra.
Defined.

(** X21. In the usual regime the quaternion built from two vectors of
    moderate length does turn the one onto the other: with the matrix [get]
    writes for it, the row vector [from] times the matrix is [to] scaled by
    [|from| / |to|], and the matrix times the column vector [to] is [from]
    scaled by [|to| / |from|]. *)
Theorem makeRot_fromto_rotates (x1 y1 z1 x2 y2 z2 : R) (m : Matrix) :
  moderate x1 y1 z1 -> moderate x2 y2 z2 ->
  let l1 := sqrt (x1 * x1 + y1 * y1 + z1 * z1) in
  let l2 := sqrt (x2 * x2 + y2 * y2 + z2 * z2) in
  let cosangle := (x1 * x2 + y1 * y2 + z1 * z2) / (l1 * l2) in
  ~ Rabs (cosangle - 1) < epsilon -> ~ Rabs (cosangle + 1) < epsilon ->
  let from := mkVec3 (Fin x1) (Fin y1) (Fin z1) in
  let to := mkVec3 (Fin x2) (Fin y2) (Fin z2) in
  vec_mat from (get (makeRot_fromto from to) m)
  = mkVec3 (Fin (l1 / l2 * x2)) (Fin (l1 / l2 * y2)) (Fin (l1 / l2 * z2))
  /\ mat_vec (get (makeRot_fromto from to) m) to
     = mkVec3 (Fin (l2 / l1 * x1)) (Fin (l2 / l1 * y1)) (Fin (l2 / l1 * z1)).
Proof.
  intros H1 H2 l1 l2 cosangle Hn1 Hn2 from to.
  apply makeRot_fromto_rotates_exact; try assumption; apply moderate_nonzero; assumption.
Qed.

Lemma makeRot_fromto_rotates_witness :
  vec_mat (mkVec3 (Fin 1) (Fin 0) (Fin 0))
          (get (makeRot_fromto (mkVec3 (Fin 1) (Fin 0) (Fin 0))
                               (mkVec3 (Fin 0) (Fin 1) (Fin 0)))
               (mfin half_turn_x))
  = mkVec3
      (Fin (sqrt (1 * 1 + 0 * 0 + 0 * 0) / sqrt (0 * 0 + 1 * 1 + 0 * 0) * 0))
      (Fin (sqrt (1 * 1 + 0 * 0 + 0 * 0) / sqrt (0 * 0 + 1 * 1 + 0 * 0) * 1))
      (Fin (sqrt (1 * 1 + 0 * 0 + 0 * 0) / sqrt (0 * 0 + 1 * 1 + 0 * 0) * 0)).
Proof.
  destruct usual_regime_xy as [Hn1 Hn2].
  destruct (makeRot_fromto_rotates 1 0 0 0 1 0 (mfin half_turn_x)
              moderate_unit_x moderate_unit_y Hn1 Hn2) as [H _].
  exact H.
Defined.

(** X23. In the usual regime, for two vectors of moderate length, the
    scalar part of the quaternion is positive and is the cosine of half the
    angle between the vectors: twice its square less 1 is [cosangle]. *)
Theorem makeRot_fromto_scalar_part (x1 y1 z1 x2 y2 z2 : R) :
  moderate x1 y1 z1 -> moderate x2 y2 z2 ->
  let cosangle :=
    (x1 * x2 + y1 * y2 + z1 * z2)
    / (sqrt (x1 * x1 + y1 * y1 + z1 * z1) * sqrt (x2 * x2 + y2 * y2 + z2 * z2)) in
  ~ Rabs (cosangle - 1) < epsilon -> ~ Rabs (cosangle + 1) < epsilon ->
  exists W : R,
    QW (makeRot_fromto (mkVec3 (Fin x1) (Fin y1) (Fin z1))
                       (mkVec3 (Fin x2) (Fin y2) (Fin z2))) = Fin W
    /\ 0 < W /\ 2 * W * W - 1 = cosangle.
Proof.
  intros H1 H2 cosangle Hn1 Hn2.
  destruct (makeRot_fromto_scalar_part_exact x1 y1 z1 x2 y2 z2
              (moderate_nonzero _ _ _ H1) (moderate_nonzero _ _ _ H2))
    as (W & HW & _ & Husual).
  exists W. split; [exact HW |]. apply Husual; assumption.
Qed.

Lemma makeRot_fromto_scalar_part_witness :
  exists W : R,
    QW (makeRot_fromto (mkVec3 (Fin 1) (Fin 0) (Fin 0))
                       (mkVec3 (Fin 0) (Fin 1) (Fin 0))) = Fin W
    /\ 0 < W
    /\ 2 * W * W - 1
       = (1 * 0 + 0 * 1 + 0 * 0)
         / (sqrt (1 * 1 + 0 * 0 + 0 * 0) * sqrt (0 * 0 + 1 * 1 + 0 * 0)).
Proof.
  destruct usual_regime_xy as [Hn1 Hn2].
  exact (makeRot_fromto_scalar_part 1 0 0 0 1 0
           moderate_unit_x moderate_unit_y Hn1 Hn2).
Defined.
